(** * card-diff: the card list comparison tool, embedded and verified

    Shallow embedding of [src/card_diff/compare.py].

    Data model.
    - A Python [str] is a list of characters, [list ascii].  A character
      stands for the code point of the same number, so the development
      covers text over the code points 0..255; on that range Python's
      [str.strip], the regular expression class [\s] and the class [\d]
      are the predicates [isspace] and [isdigit] below.
    - A Python [int] is a [Z] (unbounded).  The conversions between [int]
      and [str] are not total: above [max_str_digits] decimal digits
      [int(s)] and [str(n)] raise [ValueError].
    - An expression that can raise has a [result]: its value or the text
      of the exception.
    - [Dict[str, int]] is [gmap str Z], [Set[str]] is [gset str]; the
      reporter sorts before printing, so insertion order is not observable.
    - [print], [sys.exit] and an exception nobody catches are the effects
      of a small output/exit monad [IO]; the file system is a read-only
      environment. *)

From Stdlib Require Import ZArith Ascii String DecimalString.
From stdpp Require Import gmap strings list fin_maps sorting.

Local Open Scope Z_scope.

(** ** Strings *)

Abbreviation str := (list ascii).

(** String literals: [py "Sol Ring"] is the Python literal ["Sol Ring"]. *)
Abbreviation py := String.list_ascii_of_string.

(** [str.isspace] of one character, which is also the class [\s]:
    TAB..CR, FS..US, SPACE, NEL and NBSP. *)
Definition isspace (c : ascii) : bool :=
  let n := N_of_ascii c in
  ((9 <=? n) && (n <=? 13) || (28 <=? n) && (n <=? 32)
   || (n =? 133) || (n =? 160))%N.

(** The class [\d]: the decimal digits. *)
Definition isdigit (c : ascii) : bool :=
  let n := N_of_ascii c in ((48 <=? n) && (n <=? 57))%N.

Fixpoint takewhile (p : ascii → bool) (s : str) : str :=
  match s with
  | c :: s' => if p c then c :: takewhile p s' else []
  | [] => []
  end.

Fixpoint dropwhile (p : ascii → bool) (s : str) : str :=
  match s with
  | c :: s' => if p c then dropwhile p s' else s
  | [] => []
  end.

Definition lstrip (s : str) : str := dropwhile isspace s.
Definition rstrip (s : str) : str := reverse (dropwhile isspace (reverse s)).

(** [s.strip()] *)
Definition strip (s : str) : str := rstrip (lstrip s).

(** [s.startswith(p)] *)
Fixpoint startswith (p s : str) : bool :=
  match p, s with
  | [], _ => true
  | a :: p', b :: s' => bool_decide (a = b) && startswith p' s'
  | _ :: _, [] => false
  end.

(** [sub in s] *)
Fixpoint contains (sub s : str) : bool :=
  startswith sub s ||
  match s with
  | [] => false
  | _ :: s' => contains sub s'
  end.

(** [s.split(sep)] for a non-empty [sep]: the text is cut at every
    occurrence of [sep], scanning left to right; occurrences do not
    overlap.  [skip] counts the characters of a separator that has been
    recognised and is still to be stepped over. *)
Fixpoint split_from (sep : str) (skip : nat) (s : str) : list str :=
  match s with
  | [] => [[]]
  | c :: s' =>
    match skip with
    | S k => split_from sep k s'
    | O =>
      if startswith sep s then [] :: split_from sep (length sep - 1) s'
      else match split_from sep 0 s' with
           | chunk :: chunks => (c :: chunk) :: chunks
           | [] => [[c]]
           end
    end
  end.

Definition split (sep s : str) : list str := split_from sep 0 s.

(** ** Exceptions and the integer conversions *)

(** The value of an expression, or the text [str(e)] of the exception it
    raises. *)
Inductive result (A : Type) :=
  | Ok (a : A)
  | Raise (e : str).
Arguments Ok {A} a.
Arguments Raise {A} e.

(** [sys.int_info.default_max_str_digits]: the longest run of decimal
    digits that [int(s)] reads and that [str(n)] writes. *)
Definition max_str_digits : nat := 4300.

(** The decimal digits of a natural number, for the texts of the
    exceptions. *)
Definition str_of_nat (n : nat) : str :=
  py (NilZero.string_of_uint (Nat.to_uint n)).

Definition digit_value (c : ascii) : Z := Z.of_N (N_of_ascii c) - 48.

(** The number that a string of decimal digits spells. *)
Definition int_value (s : str) : Z :=
  fold_left (λ acc c, 10 * acc + digit_value c) s 0.

(** [int(s)] for a string of decimal digits: every digit counts towards
    the limit, leading zeros too. *)
Definition int (s : str) : result Z :=
  if (max_str_digits <? length s)%nat then
    Raise (py "Exceeds the limit (4300 digits) for integer string conversion: value has "
           ++ str_of_nat (length s)
           ++ py " digits; use sys.set_int_max_str_digits() to increase the limit")
  else Ok (int_value s).

(** The decimal notation of an integer. *)
Definition decimal (n : Z) : str := py (NilZero.string_of_int (Z.to_int n)).

(** [str(n)], as the f-strings call it: the sign does not count towards
    the limit. *)
Definition str_of_int (n : Z) : result str :=
  if (max_str_digits <? length (decimal (Z.abs n)))%nat then
    Raise (py "Exceeds the limit (4300 digits) for integer string conversion; use sys.set_int_max_str_digits() to increase the limit")
  else Ok (decimal n).

(** ** Regular expressions

    The fragment of Python's [re] the program uses, with its backtracking
    semantics: alternatives are tried in priority order (greedy first) and
    the first complete match wins.  There is at most one capturing group
    in each pattern, so a match object carries [group(1)] and [end()]. *)

Inductive regex :=
  | Bol                              (* ^ *)
  | Chr (c : ascii)                  (* a literal character *)
  | PlusClass (p : ascii → bool)     (* one or more characters of a class, greedy *)
  | Opt (r : regex)                  (* r? *)
  | Cat (r1 r2 : regex)              (* r1 r2 *)
  | Group (r : regex).               (* ( r ) *)

Record match_obj := MatchObj { m_end : nat; m_group1 : option str }.

(** Continuations receive the position reached, the text left and the
    group captured so far. *)
Abbreviation cont := (nat → str → option str → option match_obj).

Fixpoint plus_class (p : ascii → bool) (k : cont)
    (pos : nat) (s : str) (g : option str) : option match_obj :=
  match s with
  | c :: s' =>
    if p c then
      match plus_class p k (S pos) s' g with
      | Some m => Some m
      | None => k (S pos) s' g
      end
    else None
  | [] => None
  end.

Fixpoint run (r : regex) (k : cont)
    (pos : nat) (s : str) (g : option str) : option match_obj :=
  match r with
  | Bol => match pos with O => k pos s g | S _ => None end
  | Chr c =>
    match s with
    | c' :: s' => if bool_decide (c' = c) then k (S pos) s' g else None
    | [] => None
    end
  | PlusClass p => plus_class p k pos s g
  | Opt r' =>
    match run r' k pos s g with
    | Some m => Some m
    | None => k pos s g
    end
  | Cat r1 r2 => run r1 (λ pos' s' g', run r2 k pos' s' g') pos s g
  | Group r' =>
    run r' (λ pos' s' g', k pos' s' (Some (take (pos' - pos) s))) pos s g
  end.

Definition accept : cont := λ pos _ g, Some (MatchObj pos g).

(** [re.match(r, s)] *)
Definition re_match (r : regex) (s : str) : option match_obj :=
  run r accept 0 s None.

(** [re.search(r, s)]: the match at the leftmost position that has one. *)
Fixpoint search_from (r : regex) (pos : nat) (s : str) : option match_obj :=
  match run r accept pos s None with
  | Some m => Some m
  | None =>
    match s with
    | [] => None
    | _ :: s' => search_from r (S pos) s'
    end
  end.

Definition re_search (r : regex) (s : str) : option match_obj :=
  search_from r 0 s.

(** [m.group(1)] *)
Definition group1 (m : match_obj) : str := default [] (m_group1 m).

Definition is_char (c : ascii) : ascii → bool := λ c', bool_decide (c' = c).
Definition not_char (c : ascii) : ascii → bool := λ c', negb (is_char c c').

(** [r'\[([^\]]+)\]'] *)
Definition tags_re : regex :=
  Cat (Chr "[") (Cat (Group (PlusClass (not_char "]"))) (Chr "]")).

(** [r'^(\d+)x?\s+'] *)
Definition quantity_re : regex :=
  Cat Bol (Cat (Group (PlusClass isdigit))
               (Cat (Opt (Chr "x")) (PlusClass isspace))).

(** [r'([^(]+)'] *)
Definition card_name_re : regex := Group (PlusClass (not_char "(")).

(** ** The line parser *)

(** [normalize_card_name] *)
Definition normalize_card_name (card_name : str) : str :=
  if contains (py " // ") card_name then
    strip (default [] (head (split (py " // ") card_name)))
  else if contains (py "/") card_name then
    strip (default [] (head (split (py "/") card_name)))
  else card_name.

(** Lines 59-72 of [parse_card_line]: does the tag list exclude the line? *)
Definition tags_exclude (line : str) : bool :=
  if contains (py "[") line && contains (py "]") line then
    match re_search tags_re line with
    | Some tags_match =>
      let tags_text := group1 tags_match in
      let tags := split (py ",") tags_text in
      if existsb (λ tag, bool_decide (strip tag = py "Sideboard")) tags then true
      else if contains (py "{noDeck}") tags_text then true
      else false
    | None => false
    end
  else false.

(** [parse_card_line]: the quantity is converted before the name is
    looked for, so a quantity that [int] refuses raises whatever follows
    it. *)
Definition parse_card_line (line : str) : result (str * Z) :=
  let line := strip line in
  if bool_decide (line = []) then Ok (py "", 0)
  else if tags_exclude line then Ok (py "", 0)
  else
    match re_match quantity_re line with
    | None => Ok (py "", 0)
    | Some quantity_match =>
      match int (group1 quantity_match) with
      | Raise e => Raise e
      | Ok quantity =>
        let remaining_text := drop (m_end quantity_match) line in
        match re_match card_name_re remaining_text with
        | None => Ok (py "", 0)
        | Some card_name_match =>
          let card_name := strip (group1 card_name_match) in
          let card_name := normalize_card_name card_name in
          Ok (card_name, quantity)
        end
      end
    end.

(** ** Output and exit

    A computation prints lines on standard output and then returns a
    value, leaves the process through [sys.exit], or ends the process
    with an exception that nobody catches. *)

Inductive outcome (A : Type) :=
  | Returned (a : A)
  | Exited (status : Z)
  | Raised (e : str).
Arguments Returned {A} a.
Arguments Exited {A} status.
Arguments Raised {A} e.

Definition IO (A : Type) : Type := list str * outcome A.

Definition stdout {A} (c : IO A) : list str := c.1.

Definition io_bind {A B} (f : A → IO B) (c : IO A) : IO B :=
  match c.2 with
  | Returned a => (c.1 ++ (f a).1, (f a).2)
  | Exited n => (c.1, Exited n)
  | Raised e => (c.1, Raised e)
  end.

#[export] Instance io_ret : MRet IO := λ A a, ([], Returned a).
#[export] Instance io_mbind : MBind IO := λ A B f c, io_bind f c.

(** [print(line)] *)
Definition print (line : str) : IO unit := ([line], Returned ()).

(** [sys.exit(status)] *)
Definition sys_exit {A} (status : Z) : IO A := ([], Exited status).

(** An expression evaluated where no handler is in place. *)
Definition eval {A} (r : result A) : IO A :=
  match r with
  | Ok a => mret a
  | Raise e => ([], Raised e)
  end.

(** [for x in xs: body x] *)
Fixpoint for_each {X} (xs : list X) (body : X → IO unit) : IO unit :=
  match xs with
  | [] => mret ()
  | x :: xs' => body x ;; for_each xs' body
  end.

(** The status the process ends with: 0 when [main] returns, 1 after an
    exception that nobody caught. *)
Definition exit_status {A} (c : IO A) : Z :=
  match c.2 with
  | Returned _ => 0
  | Exited n => n
  | Raised _ => 1
  end.

(** ** Files

    What [open(path)] followed by [for line in f] does for a path: [open]
    raises [FileNotFoundError]; or [open] raises another exception whose
    text is [e]; or the file opens and yields [lines], after which the
    iteration ends normally or raises an exception (a decoding error
    further down the file, say) whose text is [e]. *)

Inductive file :=
  | NotFound
  | OpenFails (e : str)
  | Lines (lines : list str) (fault : option str).

Abbreviation filesystem := (str → file).

(** [for line in lines: state = body state line] inside a [try]: the
    state reached, and the exception that ended the loop, if one did. *)
Fixpoint for_lines {S} (body : S → str → result S) (state : S)
    (lines : list str) : S * option str :=
  match lines with
  | [] => (state, None)
  | line :: lines' =>
    match body state line with
    | Ok state' => for_lines body state' lines'
    | Raise e => (state, Some e)
    end
  end.

(** ** The file reader *)

Definition BASIC_LANDS : gset str :=
  {[ py "Forest"; py "Island"; py "Swamp"; py "Plains"; py "Mountain" ]}.

(** The body of the loop of [read_card_file]; [cards] is a
    [defaultdict(int)], so a missing name reads as 0. *)
Definition add_card (cards : gmap str Z) (line : str) : result (gmap str Z) :=
  match parse_card_line line with
  | Raise e => Raise e
  | Ok (card_name, quantity) =>
    if negb (bool_decide (card_name = []))
       && bool_decide (card_name ∉ BASIC_LANDS)
    then Ok (<[card_name := default 0 (cards !! card_name) + quantity]> cards)
    else Ok cards
  end.

(** The loop of [read_card_file] over the lines of a file. *)
Definition read_cards (lines : list str) : gmap str Z * option str :=
  for_lines add_card ∅ lines.

(** [read_card_file]: [except Exception] also takes what the loop
    raises. *)
Definition read_card_file (fs : filesystem) (file_path : str) : IO (gmap str Z) :=
  match fs file_path with
  | NotFound =>
    print (py "Error: File '" ++ file_path ++ py "' not found.") ;;
    sys_exit 1
  | OpenFails e =>
    print (py "Error reading file '" ++ file_path ++ py "': " ++ e) ;;
    sys_exit 1
  | Lines lines fault =>
    match read_cards lines, fault with
    | (cards, None), None => mret cards
    | (_, Some e), _ | (_, None), Some e =>
      print (py "Error reading file '" ++ file_path ++ py "': " ++ e) ;;
      sys_exit 1
    end
  end.

(** ** The filter reader *)

Definition add_filter_card (filter_cards : gset str) (line : str)
    : result (gset str) :=
  match parse_card_line line with
  | Raise e => Raise e
  | Ok (card_name, _) =>
    if negb (bool_decide (card_name = [])) then Ok ({[ card_name ]} ∪ filter_cards)
    else Ok filter_cards
  end.

(** The loop of [read_filter_file] over the lines of a file. *)
Definition read_filter_cards (lines : list str) : gset str * option str :=
  for_lines add_filter_card ∅ lines.

(** [read_filter_file]: the names added before an exception stay in the
    set that is returned. *)
Definition read_filter_file (fs : filesystem) (file_path : str) : IO (gset str) :=
  match fs file_path with
  | NotFound =>
    print (py "Warning: Filter file '" ++ file_path
           ++ py "' not found. No cards will be filtered.") ;;
    mret ∅
  | OpenFails e =>
    print (py "Warning: Error reading filter file '" ++ file_path ++ py "': "
           ++ e ++ py ". No cards will be filtered.") ;;
    mret ∅
  | Lines lines fault =>
    match read_filter_cards lines, fault with
    | (filter_cards, None), None => mret filter_cards
    | (filter_cards, Some e), _ | (filter_cards, None), Some e =>
      print (py "Warning: Error reading filter file '" ++ file_path ++ py "': "
             ++ e ++ py ". No cards will be filtered.") ;;
      mret filter_cards
    end
  end.

(** ** The comparator *)

(** The body of the loop that removes the filtered cards. *)
Definition remove_card (card : str) (cards : gmap str Z * gmap str Z)
    : gmap str Z * gmap str Z :=
  let '(cards1, cards2) := cards in
  (if bool_decide (is_Some (cards1 !! card)) then delete card cards1 else cards1,
   if bool_decide (is_Some (cards2 !! card)) then delete card cards2 else cards2).

Definition remove_filtered (filter_cards : gset str)
    (cards1 cards2 : gmap str Z) : gmap str Z * gmap str Z :=
  set_fold remove_card (cards1, cards2) filter_cards.

Definition unique_to_file1 (cards1 cards2 : gmap str Z) : gmap str Z :=
  filter (λ item, cards2 !! item.1 = None) cards1.

Definition unique_to_file2 (cards1 cards2 : gmap str Z) : gmap str Z :=
  filter (λ item, cards1 !! item.1 = None) cards2.

Definition note_difference (cards2 : gmap str Z) (card : str) (qty1 : Z)
    (different : gmap str (Z * Z)) : gmap str (Z * Z) :=
  match cards2 !! card with
  | Some qty2 =>
    if bool_decide (qty2 ≠ qty1) then <[card := (qty1, qty2)]> different
    else different
  | None => different
  end.

Definition different_quantities (cards1 cards2 : gmap str Z) : gmap str (Z * Z) :=
  map_fold (note_difference cards2) ∅ cards1.

Abbreviation comparison := (gmap str Z * gmap str Z * gmap str (Z * Z))%type.

(** Lines 189-201: the three results for two card mappings. *)
Definition compare_cards (cards1 cards2 : gmap str Z) : comparison :=
  (unique_to_file1 cards1 cards2,
   unique_to_file2 cards1 cards2,
   different_quantities cards1 cards2).

(** Truth value of an [Optional[str]]. *)
Definition truthy (filter_file : option str) : option str :=
  match filter_file with
  | Some (c :: path) => Some (c :: path)
  | _ => None
  end.

(** [compare_card_lists] *)
Definition compare_card_lists (fs : filesystem) (file1 file2 : str)
    (filter_file : option str) : IO comparison :=
  cards1 ← read_card_file fs file1;
  cards2 ← read_card_file fs file2;
  match truthy filter_file with
  | Some path =>
    filter_cards ← read_filter_file fs path;
    let '(cards1, cards2) := remove_filtered filter_cards cards1 cards2 in
    mret (compare_cards cards1 cards2)
  | None => mret (compare_cards cards1 cards2)
  end.

(** ** The reporter *)

(** Python's order on [str]: lexicographic on code points. *)
Fixpoint str_lt (a b : str) : bool :=
  match a, b with
  | _, [] => false
  | [], _ :: _ => true
  | x :: a', y :: b' =>
    (N_of_ascii x <? N_of_ascii y)%N
    || (N_of_ascii x =? N_of_ascii y)%N && str_lt a' b'
  end.

(** Python's order on tuples [(card, value)]. *)
Definition item_le {V} (value_le : V → V → bool) (a b : str * V) : Prop :=
  str_lt a.1 b.1 || bool_decide (a.1 = b.1) && value_le a.2 b.2.

#[export] Instance item_le_dec {V} (value_le : V → V → bool) :
  RelDecision (item_le value_le).
Proof. intros a b. unfold item_le. apply _. Defined.

Definition pair_le (a b : Z * Z) : bool :=
  (a.1 <? b.1) || (a.1 =? b.1) && (a.2 <=? b.2).

(** [sorted(d.items())] *)
Definition sorted_items {V} (value_le : V → V → bool) (d : gmap str V)
    : list (str * V) :=
  merge_sort (item_le value_le) (map_to_list d).

Definition nl : str := ["010"%char].

(** The f-string of a line of a unique card. *)
Definition unique_line (item : str * Z) : result str :=
  let '(card, qty) := item in
  match str_of_int qty with
  | Raise e => Raise e
  | Ok q => Ok (py "  " ++ q ++ py "x " ++ card)
  end.

(** The f-string of a line of a card whose quantities differ. *)
Definition different_line (file1 file2 : str) (item : str * (Z * Z))
    : result str :=
  let '(card, (qty1, qty2)) := item in
  match str_of_int qty1 with
  | Raise e => Raise e
  | Ok q1 =>
    match str_of_int qty2 with
    | Raise e => Raise e
    | Ok q2 =>
      Ok (py "  " ++ card ++ py ": " ++ q1 ++ py "x in '" ++ file1
          ++ py "', " ++ q2 ++ py "x in '" ++ file2 ++ py "'")
    end
  end.

Definition print_unique (unique : gmap str Z) : IO unit :=
  if bool_decide (unique = ∅) then print (py "  None")
  else
    for_each (sorted_items Z.leb unique) (λ item,
      line ← eval (unique_line item); print line).

(** The block of [main] under [# Print results]. *)
Definition report (file1 file2 : str) (result : comparison) : IO unit :=
  let '(unique1, unique2, different) := result in
  print (py "Cards unique to '" ++ file1 ++ py "':") ;;
  print_unique unique1 ;;
  print (nl ++ py "Cards unique to '" ++ file2 ++ py "':") ;;
  print_unique unique2 ;;
  print (nl ++ py "Cards with different quantities:") ;;
  if bool_decide (different = ∅) then print (py "  None")
  else
    for_each (sorted_items pair_le different) (λ item,
      line ← eval (different_line file1 file2 item); print line).

(** [main], for the parsed arguments [file1], [file2] and [--filter]. *)
Definition main (fs : filesystem) (file1 file2 : str)
    (filter_file : option str) : IO unit :=
  match truthy filter_file with
  | Some path =>
    print (py "Comparing card lists in '" ++ file1 ++ py "' and '" ++ file2
           ++ py "', filtering cards from '" ++ path ++ py "'..." ++ nl)
  | None =>
    print (py "Comparing card lists in '" ++ file1 ++ py "' and '" ++ file2
           ++ py "'..." ++ nl)
  end ;;
  result ← compare_card_lists fs file1 file2 filter_file;
  report file1 file2 result.

(** * Vocabulary of the statements *)

(** [sub] occurs in [s]: the meaning of Python's [sub in s]. *)
Definition occurs (sub s : str) : Prop := ∃ pre post, s = pre ++ sub ++ post.

(** [pre] is the text of [s] before the first occurrence of [sub]. *)
Definition before_first (sub s pre : str) : Prop :=
  (∃ post, s = pre ++ sub ++ post) ∧
  ∀ pre' post', s = pre' ++ sub ++ post' → (length pre ≤ length pre')%nat.

(** [line] begins with a quantity token whose digits are [digits] and
    which is followed by [rest]: one or more digits, optionally an "x",
    one or more white space characters. *)
Definition quantity_token (line digits rest : str) : Prop :=
  ∃ x ws, line = digits ++ x ++ ws ++ rest ∧
    digits ≠ [] ∧ Forall (λ c, isdigit c = true) digits ∧
    (x = [] ∨ x = py "x") ∧
    ws ≠ [] ∧ Forall (λ c, isspace c = true) ws.

(** The pattern after the group of digits: [x?\s+]. *)
Definition after_digits : cont :=
  λ pos s g, run (Cat (Opt (Chr "x")) (PlusClass isspace)) accept pos s g.

(** The character [c] does not occur in [s]. *)
Definition free_of (c : ascii) (s : str) : Prop := c ∉ s.

(** [text] is the bracketed text of the first bracket pair of [line]:
    the leftmost "[" that is followed by a non-empty text free of "]" and
    then by "]". *)
Definition first_bracket_pair (line text : str) : Prop :=
  ∃ pre post,
    line = pre ++ py "[" ++ text ++ py "]" ++ post ∧
    text ≠ [] ∧ free_of "]" text ∧
    ∀ pre' text' post',
      line = pre' ++ py "[" ++ text' ++ py "]" ++ post' →
      text' ≠ [] → free_of "]" text' → (length pre ≤ length pre')%nat.

(** The text up to the next "]", when there is one and the text is not
    empty. *)
Definition tags_at (s : str) : option str :=
  match takewhile (not_char "]") s, dropwhile (not_char "]") s with
  | c :: body, _ :: _ => Some (c :: body)
  | _, _ => None
  end.

(** The bracketed text a left-to-right scan finds first. *)
Fixpoint first_tags (s : str) : option str :=
  match s with
  | [] => None
  | c :: s' =>
    if bool_decide (c = "["%char) then
      match tags_at s' with
      | Some body => Some body
      | None => first_tags s'
      end
    else first_tags s'
  end.

(** The name and the quantity a line parses to. *)
Definition name_of (line : str) : option str :=
  match parse_card_line line with
  | Ok (card_name, _) => Some card_name
  | Raise _ => None
  end.

Definition quantity_of (line : str) : Z :=
  match parse_card_line line with
  | Ok (_, quantity) => quantity
  | Raise _ => 0
  end.

(** The lines a loop over [lines] gets through: those before the first
    line on which [parse_card_line] raises. *)
Fixpoint processed (lines : list str) : list str :=
  match lines with
  | [] => []
  | line :: lines' =>
    match parse_card_line line with
    | Ok _ => line :: processed lines'
    | Raise _ => []
    end
  end.

(** The lines that parse to [name]. *)
Definition entries_of (name : str) (lines : list str) : list str :=
  filter (λ line, name_of line = Some name) lines.

(** The sum of the quantities the lines parse to. *)
Definition total_quantity (entries : list str) : Z :=
  foldr (λ line total, quantity_of line + total) 0 entries.

(** A name the reader keeps: not empty and not a basic land. *)
Definition kept (name : str) : Prop := name ≠ [] ∧ name ∉ BASIC_LANDS.

(** [filtered] is [cards] without the names of [X]. *)
Definition filtered_from (X : gset str) (cards filtered : gmap str Z) : Prop :=
  ∀ name, (name ∈ X → filtered !! name = None) ∧
          (name ∉ X → filtered !! name = cards !! name).

(** [open] fails for the file. *)
Definition cannot_open (f : file) : Prop := f = NotFound ∨ ∃ e, f = OpenFails e.

(** The computation returns: it does not leave through [sys.exit]. *)
Definition returns {A} (c : IO A) : Prop := ∃ a, c.2 = Returned a.

(** The line [main] prints first. *)
Definition announcement (line : str) : Prop :=
  startswith (py "Comparing card lists in '") line = true.

(** [line] is cut into the digits of a quantity token, its optional "x",
    its white space, all of it, and the text that follows. *)
Definition quantity_prefix (line digits x ws rest : str) : Prop :=
  line = digits ++ x ++ ws ++ rest ∧
  digits ≠ [] ∧ Forall (λ c, isdigit c = true) digits ∧
  (x = [] ∨ x = py "x") ∧
  ws ≠ [] ∧ Forall (λ c, isspace c = true) ws ∧
  (∀ c t, rest = c :: t → isspace c = false).

(** [line] is a card entry: a quantity token with the digits [digits],
    then the name text [name_text], which runs to the end of the line or
    to the first "(". *)
Definition card_entry (line digits name_text : str) : Prop :=
  ∃ x ws tail,
    quantity_prefix line digits x ws (name_text ++ tail) ∧
    name_text ≠ [] ∧ free_of "(" name_text ∧
    (tail = [] ∨ ∃ t, tail = "("%char :: t).

(** The first bracket pair of [line] has a tag that is "Sideboard" once
    stripped, or has "{noDeck}" in its text. *)
Definition excluded_by_tags (line : str) : Prop :=
  ∃ tags_text,
    first_bracket_pair line tags_text ∧
    (Exists (λ tag, strip tag = py "Sideboard") (split (py ",") tags_text)
     ∨ occurs (py "{noDeck}") tags_text).

(** The file can be read to its end. *)
Definition readable (f : file) : Prop := ∃ lines, f = Lines lines None.

(** [parse_card_line] returns for the line: it does not raise. *)
Definition parses (line : str) : Prop := ∃ item, parse_card_line line = Ok item.

(** A reader gets through the file: it is read to its end and no line of
    it makes [parse_card_line] raise. *)
Definition file_ok (f : file) : Prop :=
  ∃ lines, f = Lines lines None ∧ Forall parses lines.

(** [str(n)] does not raise: [n] has no more decimal digits than the
    limit. *)
Definition printable (n : Z) : Prop :=
  (length (decimal (Z.abs n)) ≤ max_str_digits)%nat.

(** Every quantity of the three results can be printed. *)
Definition report_printable (result : comparison) : Prop :=
  (∀ card qty, result.1.1 !! card = Some qty → printable qty) ∧
  (∀ card qty, result.1.2 !! card = Some qty → printable qty) ∧
  (∀ card qty1 qty2, result.2 !! card = Some (qty1, qty2) →
     printable qty1 ∧ printable qty2).

(** * Properties *)

(** ** Characters *)

Ltac by_cases_on_char c :=
  destruct c as [[] [] [] [] [] [] [] []]; vm_compute; try done.

Lemma isdigit_not_space c : isdigit c = true → isspace c = false.
Proof. by_cases_on_char c. Qed.

Lemma isdigit_not_x c : isdigit c = true → c ≠ "x"%char.
Proof. by_cases_on_char c. Qed.

Lemma isspace_not_bracket c : isspace c = true → c ≠ "["%char ∧ c ≠ "]"%char.
Proof. by_cases_on_char c. Qed.

Lemma isdigit_value c : isdigit c = true → 0 ≤ digit_value c ≤ 9.
Proof.
  destruct c as [[] [] [] [] [] [] [] []]; vm_compute; try done;
    intros _; split; discriminate.
Qed.

(** ** Scanning *)

Section scanning.
Context (p : ascii → bool).

Lemma takewhile_dropwhile s : takewhile p s ++ dropwhile p s = s.
Proof. induction s as [|c s IH]; simpl; [done|]. destruct (p c); simpl; congruence. Qed.

Lemma takewhile_all s : Forall (λ c, p c = true) (takewhile p s).
Proof.
  induction s as [|c s IH]; simpl; [constructor|].
  destruct (p c) eqn:E; by constructor.
Qed.

Lemma dropwhile_head s c r : dropwhile p s = c :: r → p c = false.
Proof.
  induction s as [|a s IH]; simpl; [done|].
  destruct (p a) eqn:E; [done|]. by intros [= <- _].
Qed.

Lemma dropwhile_drop s : dropwhile p s = drop (length (takewhile p s)) s.
Proof. induction s as [|c s IH]; simpl; [done|]. by destruct (p c). Qed.

Lemma takewhile_take s : takewhile p s = take (length (takewhile p s)) s.
Proof. induction s as [|c s IH]; simpl; [done|]. destruct (p c); simpl; congruence. Qed.

(** A run of [p]-characters followed by the end or by a character that
    fails [p] is what the scan takes. *)
Lemma scan_app w r :
  Forall (λ c, p c = true) w →
  (∀ c r', r = c :: r' → p c = false) →
  takewhile p (w ++ r) = w ∧ dropwhile p (w ++ r) = r.
Proof.
  intros Hw Hr. induction Hw as [|c w Hc _ [IH1 IH2]]; simpl.
  - destruct r as [|c r']; [done|]. simpl. by rewrite (Hr c r' eq_refl).
  - rewrite Hc. by rewrite IH1, IH2.
Qed.

Lemma takewhile_nil_head c s : takewhile p (c :: s) = [] → p c = false.
Proof. simpl. by destruct (p c). Qed.
End scanning.

(** ** [startswith], [in] and [split] *)

Lemma startswith_spec p s : startswith p s = true ↔ ∃ post, s = p ++ post.
Proof.
  revert s. induction p as [|a p IH]; intros s; simpl.
  - split; [eauto|done].
  - destruct s as [|b s]; [split; [done|by intros [? ?]]|].
    rewrite andb_true_iff, bool_decide_eq_true, IH. split.
    + intros [-> [post ->]]. eauto.
    + intros [post [= -> ->]]. eauto.
Qed.

Lemma contains_spec sub s : contains sub s = true ↔ occurs sub s.
Proof.
  unfold occurs. induction s as [|c s IH]; simpl.
  - rewrite orb_false_r, startswith_spec. split.
    + intros [post ->]. by exists [], post.
    + intros ([|? ?] & post & H); [eauto|done].
  - rewrite orb_true_iff, startswith_spec, IH. split.
    + intros [[post ->]|(pre & post & ->)]; [by exists [], post|by exists (c :: pre), post].
    + intros ([|a pre] & post & H); simpl in H; [left; eauto|].
      injection H as -> ->. right; eauto.
Qed.

Lemma contains_false sub s : contains sub s = false ↔ ¬ occurs sub s.
Proof. rewrite <- contains_spec. by destruct (contains sub s). Qed.

Lemma before_first_occurs sub s pre : before_first sub s pre → occurs sub s.
Proof. intros [[post ->] _]. by exists pre, post. Qed.

Lemma before_first_unique sub s pre1 pre2 :
  before_first sub s pre1 → before_first sub s pre2 → pre1 = pre2.
Proof.
  intros [[post1 H1] M1] [[post2 H2] M2].
  assert (length pre1 = length pre2) as Hlen.
  { apply Nat.le_antisymm; [eapply M1|eapply M2]; eauto. }
  rewrite H1 in H2. by apply app_inj_1 in H2 as [? _].
Qed.

Lemma split_from_skip sep w s :
  split_from sep (length w) (w ++ s) = split_from sep 0 s.
Proof.
  induction w as [|c w IH]; simpl; [by destruct s|done].
Qed.

(** The two equations of [split]: no separator, one chunk; otherwise the
    text before the first separator, then the chunks of what follows it. *)
Lemma split_no_sep sep s : sep ≠ [] → ¬ occurs sep s → split sep s = [s].
Proof.
  intros Hsep. unfold split. induction s as [|c s IH]; intros Hno; simpl; [done|].
  destruct (startswith sep (c :: s)) eqn:E.
  - apply startswith_spec in E as [post E]. destruct Hno. by exists [], post.
  - rewrite IH; [done|]. intros (pre & post & ->). apply Hno. by exists (c :: pre), post.
Qed.

Lemma split_first_sep sep s pre post :
  sep ≠ [] → before_first sep s pre → s = pre ++ sep ++ post →
  split sep s = pre :: split sep post.
Proof.
  intros Hsep. unfold split. revert s.
  induction pre as [|c pre IH]; intros s [_ Hmin] ->; simpl.
  - destruct sep as [|a sep]; [done|]. simpl.
    rewrite bool_decide_eq_true_2 by done. simpl.
    assert (startswith sep (sep ++ post) = true) as ->.
    { apply startswith_spec. eauto. }
    rewrite Nat.sub_0_r. by rewrite split_from_skip.
  - destruct (startswith sep (c :: pre ++ sep ++ post)) eqn:E.
    + apply startswith_spec in E as [post' E].
      specialize (Hmin [] post' E). simpl in Hmin. lia.
    + rewrite (IH (pre ++ sep ++ post)); [done| |done].
      split; [eauto|]. intros pre' post' H.
      specialize (Hmin (c :: pre') post'). simpl in Hmin.
      rewrite H in Hmin. specialize (Hmin eq_refl). lia.
Qed.

(** Every text that contains [sub] has a first occurrence. *)
Lemma occurs_before_first sub s : occurs sub s → ∃ pre, before_first sub s pre.
Proof.
  induction s as [|c s IH]; intros Hocc.
  - exists []. destruct Hocc as ([|? ?] & post & H); [|done].
    split; [by exists post|]. intros; simpl; lia.
  - destruct (startswith sub (c :: s)) eqn:E.
    + apply startswith_spec in E as [post E]. exists [].
      split; [by exists post|]. intros; simpl; lia.
    + destruct IH as [pre [[post Hp] Hmin]].
      { destruct Hocc as ([|a pre] & post & H).
        - assert (startswith sub (c :: s) = true) by (apply startswith_spec; eauto).
          congruence.
        - injection H as -> ->. by exists pre, post. }
      exists (c :: pre). split; [exists post; simpl; congruence|].
      intros [|a pre'] post' H.
      * assert (startswith sub (c :: s) = true) by (apply startswith_spec; eauto).
        congruence.
      * injection H as -> H. specialize (Hmin pre' post' H). simpl. lia.
Qed.

Lemma split_head sep s pre :
  sep ≠ [] → before_first sep s pre → head (split sep s) = Some pre.
Proof.
  intros Hsep Hpre. destruct (Hpre) as [[post Hs] _].
  by rewrite (split_first_sep sep s pre post).
Qed.

(** ** [strip] *)

Lemma dropwhile_snoc p s c :
  dropwhile p (s ++ [c]) =
  match dropwhile p s with
  | [] => if p c then [] else [c]
  | r => r ++ [c]
  end.
Proof.
  induction s as [|a s IH]; simpl; [done|].
  destruct (p a); [done|]. done.
Qed.

Lemma rstrip_cons c s :
  rstrip (c :: s) =
  match rstrip s with
  | [] => if isspace c then [] else [c]
  | r => c :: r
  end.
Proof.
  unfold rstrip. rewrite reverse_cons, dropwhile_snoc.
  destruct (dropwhile isspace (reverse s)) as [|a r] eqn:E.
  - rewrite reverse_nil. by destruct (isspace c).
  - rewrite reverse_app, reverse_singleton. simpl.
    destruct (reverse (a :: r)) eqn:E'; [|done].
    apply (f_equal length) in E'. rewrite length_reverse in E'. done.
Qed.

Lemma rstrip_nil : rstrip [] = [].
Proof. done. Qed.

(** [strip] keeps a leading character that is not white space. *)
Lemma strip_head c s : isspace c = false → ∃ r, strip (c :: s) = c :: r.
Proof.
  intros Hc. unfold strip, lstrip. simpl. rewrite Hc, rstrip_cons, Hc.
  destruct (rstrip s); eauto.
Qed.

Lemma rstrip_split s :
  ∃ ws, s = rstrip s ++ ws ∧ Forall (λ c, isspace c = true) ws.
Proof.
  induction s as [|c s (ws & IH & Hws)]; [by exists []|].
  rewrite rstrip_cons. destruct (rstrip s) as [|a r] eqn:E.
  - destruct (isspace c) eqn:Hc.
    + exists (c :: s). split; [done|]. simpl in IH. rewrite IH. by constructor.
    + exists ws. simpl in *. split; [congruence|done].
  - exists ws. split; [|done]. simpl in *. congruence.
Qed.

Lemma rstrip_last s r c : rstrip s = r ++ [c] → isspace c = false.
Proof.
  revert r. induction s as [|a s IH]; intros r; [by destruct r|].
  rewrite rstrip_cons. destruct (rstrip s) as [|b t] eqn:E.
  - destruct (isspace a) eqn:Ha; [by destruct r|].
    destruct r as [|? [|? ?]]; [|done..]. by intros [= <-].
  - destruct r as [|x r]; [done|]. intros [= <- H]. by eapply IH.
Qed.

(** What [strip] returns: the text between the leading and the trailing
    white space. *)
Lemma strip_spec s :
  ∃ l r, s = l ++ strip s ++ r ∧
    Forall (λ c, isspace c = true) l ∧ Forall (λ c, isspace c = true) r ∧
    (∀ c t, strip s = c :: t → isspace c = false) ∧
    (∀ t c, strip s = t ++ [c] → isspace c = false).
Proof.
  unfold strip. destruct (rstrip_split (lstrip s)) as (r & Hr & Hws).
  exists (takewhile isspace s), r. repeat split.
  - rewrite <- Hr. unfold lstrip. by rewrite takewhile_dropwhile.
  - apply takewhile_all.
  - done.
  - intros c t Hs. unfold lstrip in *.
    destruct (dropwhile isspace s) as [|a u] eqn:E; [done|].
    apply dropwhile_head in E. rewrite rstrip_cons in Hs.
    destruct (rstrip u); [|by injection Hs as <- _].
    rewrite E in Hs. by injection Hs as <- _.
  - intros t c. apply rstrip_last.
Qed.

Lemma strip_nil : strip [] = [].
Proof. done. Qed.

(** ** The regular expression engine *)

Section plus_class.
Context (p : ascii → bool) (k : cont) (g : option str).

(** A match of [p+] followed by [k] splits the run of [p]-characters
    somewhere after its first character. *)
Lemma plus_class_inv pos s m :
  plus_class p k pos s g = Some m →
  ∃ i, (0 < i ≤ length (takewhile p s))%nat ∧
       k (pos + i)%nat (drop i s) g = Some m.
Proof.
  revert pos. induction s as [|c s IH]; intros pos; simpl; [done|].
  destruct (p c); [|done].
  destruct (plus_class p k (S pos) s g) as [m'|] eqn:E.
  - intros [= ->]. destruct (IH _ E) as (i & Hi & Hk).
    exists (S i). split; [simpl; lia|]. simpl.
    by replace (pos + S i)%nat with (S pos + i)%nat by lia.
  - intros Hk. exists 1%nat. split; [simpl; lia|].
    by replace (pos + 1)%nat with (S pos) by lia.
Qed.

Lemma plus_class_fail pos s :
  (∀ i, (0 < i ≤ length (takewhile p s))%nat →
        k (pos + i)%nat (drop i s) g = None) →
  plus_class p k pos s g = None.
Proof.
  intros Hk. destruct (plus_class p k pos s g) as [m|] eqn:E; [|done].
  destruct (plus_class_inv _ _ _ E) as (i & Hi & Hm).
  by rewrite (Hk i Hi) in Hm.
Qed.

(** Greedy: when [k] accepts after the whole run, that match wins. *)
Lemma plus_class_greedy pos s m :
  takewhile p s ≠ [] →
  k (pos + length (takewhile p s))%nat (dropwhile p s) g = Some m →
  plus_class p k pos s g = Some m.
Proof.
  revert pos. induction s as [|c s IH]; intros pos; simpl; [done|].
  destruct (p c); [|done]. intros _. simpl.
  replace (pos + S (length (takewhile p s)))%nat
    with (S pos + length (takewhile p s))%nat by lia.
  destruct (takewhile p s) as [|a w] eqn:E.
  - rewrite plus_class_fail; [|rewrite E; simpl; lia].
    pose proof (takewhile_dropwhile p s) as H. rewrite E in H. simpl in H.
    rewrite H. simpl. by rewrite Nat.add_0_r.
  - intros Hk. by rewrite (IH (S pos)).
Qed.
End plus_class.

Lemma plus_class_accept p pos s g :
  plus_class p accept pos s g =
  match takewhile p s with
  | [] => None
  | w => Some (MatchObj (pos + length w) g)
  end.
Proof.
  destruct (takewhile p s) as [|a w] eqn:E.
  - apply plus_class_fail. rewrite E. simpl. lia.
  - apply plus_class_greedy; [by rewrite E|]. by rewrite E.
Qed.

(** *** [card_name_re]: the longest non-empty prefix free of "(" *)

Lemma re_match_card_name s :
  re_match card_name_re s =
  match takewhile (not_char "(") s with
  | [] => None
  | w => Some (MatchObj (length w) (Some w))
  end.
Proof.
  unfold re_match, card_name_re. simpl.
  destruct (takewhile (not_char "(") s) as [|a w] eqn:E.
  - apply plus_class_fail. rewrite E. simpl. lia.
  - apply plus_class_greedy; [by rewrite E|]. rewrite E. unfold accept. simpl.
    pose proof (takewhile_take (not_char "(") s) as H. rewrite E in H.
    simpl in H. by rewrite <- H.
Qed.

(** *** [quantity_re]: digits, an optional "x", white space *)

Lemma after_digits_unfold pos s g :
  after_digits pos s g =
  match
    match s with
    | c' :: s' =>
      if bool_decide (c' = "x"%char) then plus_class isspace accept (S pos) s' g
      else None
    | [] => None
    end
  with
  | Some m => Some m
  | None => plus_class isspace accept pos s g
  end.
Proof. done. Qed.

Lemma after_digits_digit pos c t g :
  isdigit c = true → after_digits pos (c :: t) g = None.
Proof.
  intros Hc. unfold after_digits. simpl.
  rewrite bool_decide_eq_false_2 by by apply isdigit_not_x.
  by rewrite (isdigit_not_space c Hc).
Qed.

Lemma after_digits_inv pos s g m :
  after_digits pos s g = Some m →
  ∃ x ws rest, s = x ++ ws ++ rest ∧ (x = [] ∨ x = py "x") ∧
    ws ≠ [] ∧ Forall (λ c, isspace c = true) ws ∧
    (∀ c t, rest = c :: t → isspace c = false) ∧
    m = MatchObj (pos + length (x ++ ws)) g.
Proof.
  unfold after_digits. simpl.
  assert (∀ pos s, plus_class isspace accept pos s g = Some m →
    ∃ ws rest, s = ws ++ rest ∧ ws ≠ [] ∧ Forall (λ c, isspace c = true) ws ∧
      (∀ c t, rest = c :: t → isspace c = false) ∧
      m = MatchObj (pos + length ws) g) as Hws.
  { intros pos' s'. rewrite plus_class_accept.
    destruct (takewhile isspace s') as [|a w] eqn:E; [done|]. intros [= <-].
    exists (a :: w), (dropwhile isspace s'). repeat split; [|done| |].
    - by rewrite <- E, takewhile_dropwhile.
    - rewrite <- E. apply takewhile_all.
    - intros c t. apply dropwhile_head. }
  destruct s as [|c t].
  - intros H. destruct (Hws _ _ H) as (ws & rest & H1 & H2 & _).
    by destruct ws.
  - case_bool_decide as Hx.
    + subst c. destruct (plus_class isspace accept (S pos) t g) as [m'|] eqn:E.
      * intros [= ->]. destruct (Hws _ _ E) as (ws & rest & -> & ? & ? & ? & ->).
        exists (py "x"), ws, rest. repeat split; eauto.
        simpl. do 2 f_equal. lia.
      * simpl. done.
    + intros H. destruct (Hws _ _ H) as (ws & rest & H1 & ? & ? & ? & ->).
      exists [], ws, rest. repeat split; eauto.
Qed.

Lemma after_digits_token pos x ws rest g :
  (x = [] ∨ x = py "x") → ws ≠ [] → Forall (λ c, isspace c = true) ws →
  ∃ m, after_digits pos (x ++ ws ++ rest) g = Some m ∧ m_group1 m = g.
Proof.
  intros Hx Hne Hws. rewrite after_digits_unfold.
  destruct Hws as [|c ws Hc Hws]; [done|].
  assert (∀ pos, ∃ m,
    plus_class isspace accept pos ((c :: ws) ++ rest) g = Some m ∧ m_group1 m = g)
    as Hplus.
  { intros pos'. rewrite plus_class_accept. simpl. rewrite Hc. eauto. }
  destruct Hx as [->| ->].
  - change ([] ++ (c :: ws) ++ rest) with (c :: ws ++ rest) at 1.
    lazy beta iota.
    case_bool_decide as Hcx; [subst c; by vm_compute in Hc|].
    apply (Hplus pos).
  - change (py "x" ++ (c :: ws) ++ rest) with ("x"%char :: (c :: ws) ++ rest).
    lazy beta iota. rewrite bool_decide_eq_true_2 by done.
    destruct (Hplus (S pos)) as (m & -> & Hm). eauto.
Qed.

Lemma drop_in_run p s i :
  (i < length (takewhile p s))%nat → ∃ c t, drop i s = c :: t ∧ p c = true.
Proof.
  revert i. induction s as [|a s IH]; intros i; simpl; [lia|].
  destruct (p a) eqn:E; simpl; [|lia].
  destruct i as [|i]; [eauto|]. intros Hi. apply IH. lia.
Qed.

Lemma re_match_quantity_inv line m :
  re_match quantity_re line = Some m →
  ∃ digits x ws rest, line = digits ++ x ++ ws ++ rest ∧
    digits ≠ [] ∧ Forall (λ c, isdigit c = true) digits ∧
    (x = [] ∨ x = py "x") ∧
    ws ≠ [] ∧ Forall (λ c, isspace c = true) ws ∧
    (∀ c t, rest = c :: t → isspace c = false) ∧
    m = MatchObj (length (digits ++ x ++ ws)) (Some digits).
Proof.
  unfold re_match, quantity_re. simpl. intros H.
  apply plus_class_inv in H as (i & Hi & H).
  change (after_digits (0 + i) (drop i line) (Some (take (0 + i - 0) line)) = Some m) in H.
  destruct (decide (i < length (takewhile isdigit line))%nat) as [Hlt|Hge].
  { destruct (drop_in_run _ _ _ Hlt) as (c & t & Hd & Hc).
    rewrite Hd in H. by rewrite after_digits_digit in H. }
  assert (i = length (takewhile isdigit line)) as -> by lia.
  rewrite <- dropwhile_drop in H.
  apply after_digits_inv in H as (x & ws & rest & Hs & Hx & ? & ? & ? & ->).
  simpl. rewrite Nat.sub_0_r, <- takewhile_take.
  exists (takewhile isdigit line), x, ws, rest. repeat split; eauto.
  - by rewrite <- Hs, takewhile_dropwhile.
  - intros E. rewrite E in Hi. simpl in Hi. lia.
  - apply takewhile_all.
  - f_equal. rewrite !length_app. lia.
Qed.

Lemma quantity_token_digits line digits rest :
  quantity_token line digits rest →
  takewhile isdigit line = digits ∧
  ∃ x ws, dropwhile isdigit line = x ++ ws ++ rest ∧ (x = [] ∨ x = py "x") ∧
    ws ≠ [] ∧ Forall (λ c, isspace c = true) ws.
Proof.
  intros (x & ws & -> & Hne & Hd & Hx & Hws & Hsp).
  destruct (scan_app isdigit digits (x ++ ws ++ rest)) as [-> ->]; [done| |by eauto 10].
  intros c r Hr. destruct Hsp as [|a ws Ha _]; [done|].
  destruct Hx as [->| ->]; simpl in Hr; injection Hr as <- _.
  - destruct (isdigit a) eqn:E; [|done]. apply isdigit_not_space in E. congruence.
  - done.
Qed.

Lemma re_match_quantity_token line digits rest :
  quantity_token line digits rest →
  ∃ m, re_match quantity_re line = Some m ∧ group1 m = digits.
Proof.
  intros Htok. destruct (quantity_token_digits _ _ _ Htok)
    as (Hd & x & ws & Hafter & Hx & Hne & Hws).
  destruct Htok as (_ & _ & _ & Hdne & _).
  unfold re_match, quantity_re. simpl.
  destruct (after_digits_token (0 + length digits) x ws rest
              (Some (take (0 + length digits - 0) line)) Hx Hne Hws) as (m & Hm & Hg).
  exists m. split.
  - apply plus_class_greedy; rewrite Hd; [done|]. by rewrite Hafter.
  - unfold group1. rewrite Hg. simpl. rewrite Nat.sub_0_r.
    by rewrite <- Hd, <- takewhile_take.
Qed.

(** The digits of the quantity token are determined by the line. *)
Lemma quantity_token_unique line digits1 rest1 digits2 rest2 :
  quantity_token line digits1 rest1 → quantity_token line digits2 rest2 →
  digits1 = digits2.
Proof.
  intros [H1 _]%quantity_token_digits [H2 _]%quantity_token_digits. congruence.
Qed.

(** *** [tags_re]: the first bracket pair *)

Lemma not_char_true c a : not_char c a = true ↔ a ≠ c.
Proof. unfold not_char, is_char. rewrite negb_true_iff, bool_decide_eq_false. done. Qed.

Lemma not_char_false c a : not_char c a = false ↔ a = c.
Proof. unfold not_char, is_char. rewrite negb_false_iff, bool_decide_eq_true. done. Qed.

Lemma not_char_all c s : Forall (λ a, not_char c a = true) s ↔ free_of c s.
Proof.
  unfold free_of. rewrite Forall_forall. split.
  - intros H Hin. specialize (H c Hin). by apply not_char_true in H.
  - intros H a Ha. apply not_char_true. by intros ->.
Qed.

Lemma tags_at_spec s body :
  tags_at s = Some body ↔
  body ≠ [] ∧ free_of "]" body ∧ ∃ post, s = body ++ py "]" ++ post.
Proof.
  unfold tags_at. split.
  - destruct (takewhile (not_char "]") s) as [|c w] eqn:Ht; [done|].
    destruct (dropwhile (not_char "]") s) as [|a r] eqn:Hd; [done|].
    intros [= <-]. split; [done|]. split.
    + apply not_char_all. rewrite <- Ht. apply takewhile_all.
    + exists r. pose proof (dropwhile_head _ _ _ _ Hd) as Ha.
      apply not_char_false in Ha. subst a.
      rewrite <- (takewhile_dropwhile (not_char "]") s), Ht.
      by rewrite Hd.
  - intros (Hne & Hfree & post & ->).
    destruct (scan_app (not_char "]") body (py "]" ++ post)) as [-> ->].
    + by apply not_char_all.
    + by intros c r' [= <- _].
    + by destruct body.
Qed.

Lemma run_tags_re pos s :
  run tags_re accept pos s None =
  match s with
  | c :: s' =>
    if bool_decide (c = "["%char) then
      (λ body, MatchObj (S (S pos + length body)) (Some body)) <$> tags_at s'
    else None
  | [] => None
  end.
Proof.
  unfold tags_re. simpl. destruct s as [|c s']; [done|].
  case_bool_decide; [|done]. unfold tags_at.
  destruct (takewhile (not_char "]") s') as [|a w] eqn:Ht.
  { apply plus_class_fail. rewrite Ht. simpl. lia. }
  destruct (dropwhile (not_char "]") s') as [|b r] eqn:Hd.
  - apply plus_class_fail. intros i Hi.
    destruct (decide (i < length (takewhile (not_char "]") s'))%nat) as [Hlt|Hge].
    + destruct (drop_in_run _ _ _ Hlt) as (x & t & -> & Hx).
      apply not_char_true in Hx. by rewrite bool_decide_eq_false_2.
    + assert (i = length (takewhile (not_char "]") s')) as -> by lia.
      by rewrite <- dropwhile_drop, Hd.
  - apply plus_class_greedy; rewrite Ht; [done|]. rewrite Hd.
    pose proof (dropwhile_head _ _ _ _ Hd) as Hb.
    apply not_char_false in Hb. subst b.
    rewrite bool_decide_eq_true_2 by done. unfold accept. simpl.
    replace (pos + S (length w) - pos)%nat with (S (length w)) by lia.
    pose proof (takewhile_take (not_char "]") s') as H'. rewrite Ht in H'.
    simpl in H'. by rewrite <- H'.
Qed.

Lemma search_tags_re pos s :
  group1 <$> search_from tags_re pos s = first_tags s.
Proof.
  revert pos. induction s as [|c s IH]; intros pos.
  - done.
  - cbn [search_from first_tags]. rewrite run_tags_re.
    case_bool_decide; [|apply IH].
    destruct (tags_at s) as [body|]; [done|]. apply IH.
Qed.

Lemma first_tags_sound s text :
  first_tags s = Some text → first_bracket_pair s text.
Proof.
  induction s as [|c s IH]; [done|]. cbn [first_tags].
  assert (first_tags s = Some text →
          (∀ text', c = "["%char → tags_at s ≠ Some text') →
          first_bracket_pair (c :: s) text) as Hlift.
  { intros H Hno. destruct (IH H) as (pre & post & -> & Hne & Hfree & Hmin).
    exists (c :: pre), post. repeat split; [done..|].
    intros [|a pre'] text' post' Hs Hne' Hfree'.
    - injection Hs as -> Hs. destruct (Hno text' eq_refl).
      apply tags_at_spec. repeat split; [done..|]. by exists post'.
    - injection Hs as -> Hs. specialize (Hmin pre' text' post' Hs Hne' Hfree').
      simpl. lia. }
  case_bool_decide as Hc.
  - destruct (tags_at s) as [body|] eqn:E.
    + intros [= ->]. apply tags_at_spec in E as (Hne & Hfree & post & ->).
      exists [], post. subst c. repeat split; [done..|]. intros; simpl; lia.
    + intros H. apply Hlift; [done|]. by intros.
  - intros H. apply Hlift; [done|]. by intros.
Qed.

Lemma first_tags_complete s text :
  first_bracket_pair s text → first_tags s = Some text.
Proof.
  intros (pre & post & Hs & Hne & Hfree & Hmin). revert s Hs Hmin.
  induction pre as [|a pre IH]; intros s -> Hmin.
  - change (first_tags ("["%char :: text ++ py "]" ++ post) = Some text).
    cbn [first_tags]. rewrite bool_decide_eq_true_2 by done.
    assert (tags_at (text ++ py "]" ++ post) = Some text) as ->; [|done].
    apply tags_at_spec. eauto.
  - change (first_tags (a :: pre ++ py "[" ++ text ++ py "]" ++ post) = Some text).
    cbn [first_tags].
    assert (first_tags (pre ++ py "[" ++ text ++ py "]" ++ post) = Some text) as Hrec.
    { apply IH; [done|]. intros pre' text' post' Hs' Hne' Hfree'.
      specialize (Hmin (a :: pre') text' post' (f_equal (cons a) Hs') Hne' Hfree').
      simpl in Hmin. lia. }
    case_bool_decide as Ha; [|done].
    destruct (tags_at _) as [body|] eqn:E; [|done].
    apply tags_at_spec in E as (Hne' & Hfree' & post' & E).
    subst a.
    specialize (Hmin [] body post' (f_equal (cons "["%char) E) Hne' Hfree').
    simpl in Hmin. lia.
Qed.

Lemma first_tags_spec s text :
  first_tags s = Some text ↔ first_bracket_pair s text.
Proof. split; [apply first_tags_sound|apply first_tags_complete]. Qed.

(** White space around the line does not move the bracket pair. *)
Lemma dropwhile_all p s : Forall (λ c, p c = true) s → dropwhile p s = [].
Proof. induction 1 as [|c s Hc _ IH]; simpl; [done|]. by rewrite Hc. Qed.

Lemma scan_app_stop p s t :
  dropwhile p s ≠ [] →
  takewhile p (s ++ t) = takewhile p s ∧
  dropwhile p (s ++ t) = dropwhile p s ++ t.
Proof.
  induction s as [|c s IH]; simpl; [done|].
  destruct (p c); [|done]. intros H. destruct (IH H) as [-> ->]. done.
Qed.

Lemma scan_app_all p s t :
  dropwhile p s = [] → Forall (λ c, p c = true) t →
  dropwhile p (s ++ t) = [].
Proof.
  intros Hs Ht. induction s as [|c s IH]; simpl in *; [by apply dropwhile_all|].
  destruct (p c); [auto|done].
Qed.

Lemma tags_at_app_space s ws :
  Forall (λ c, isspace c = true) ws → tags_at (s ++ ws) = tags_at s.
Proof.
  intros Hws. unfold tags_at.
  destruct (dropwhile (not_char "]") s) as [|a r] eqn:E.
  - rewrite scan_app_all; [|done|].
    + by destruct (takewhile _ (s ++ ws)), (takewhile _ s).
    + eapply Forall_impl; [done|]. intros c Hc. simpl.
      apply not_char_true. by apply isspace_not_bracket.
  - destruct (scan_app_stop (not_char "]") s ws) as [-> ->]; [by rewrite E|].
    by rewrite E.
Qed.

Lemma first_tags_app_space s ws :
  Forall (λ c, isspace c = true) ws → first_tags (s ++ ws) = first_tags s.
Proof.
  intros Hws. induction s as [|c s IH].
  - simpl. induction Hws as [|a ws Ha _ IH]; [done|]. cbn [first_tags].
    rewrite bool_decide_eq_false_2; [done|]. by apply isspace_not_bracket.
  - change ((c :: s) ++ ws) with (c :: s ++ ws). cbn [first_tags].
    by rewrite tags_at_app_space, IH.
Qed.

Lemma first_tags_lstrip s : first_tags (lstrip s) = first_tags s.
Proof.
  unfold lstrip. induction s as [|c s IH]; [done|]. simpl.
  destruct (isspace c) eqn:Hc; [|done]. rewrite IH.
  rewrite bool_decide_eq_false_2; [done|]. by apply isspace_not_bracket.
Qed.

Lemma first_tags_strip s : first_tags (strip s) = first_tags s.
Proof.
  unfold strip. destruct (rstrip_split (lstrip s)) as (ws & Hs & Hws).
  rewrite <- (first_tags_lstrip s), <- (first_tags_app_space _ ws Hws).
  by rewrite <- Hs.
Qed.

(** ** The line parser *)

Lemma before_first_compute sep s pre :
  sep ≠ [] → contains sep s = true → head (split sep s) = Some pre →
  before_first sep s pre.
Proof.
  intros Hsep Hc Hh. apply contains_spec, occurs_before_first in Hc as [pre' Hpre'].
  rewrite (split_head sep s pre') in Hh by done. by injection Hh as <-.
Qed.

Lemma before_first_head sep s pre :
  sep ≠ [] → before_first sep s pre → default [] (head (split sep s)) = pre.
Proof. intros Hsep H. by rewrite (split_head sep s pre). Qed.

Lemma int_value_nonneg digits :
  Forall (λ c, isdigit c = true) digits → 0 ≤ int_value digits.
Proof.
  unfold int_value. assert (0 ≤ 0) as Ha by done. revert Ha.
  generalize 0 at 2 4 as a. intros a Ha Hd. revert a Ha.
  induction Hd as [|c ds Hc _ IH]; intros a Ha; simpl; [done|].
  apply IH. pose proof (isdigit_value c Hc). lia.
Qed.

Lemma int_Ok s : (length s ≤ max_str_digits)%nat → int s = Ok (int_value s).
Proof.
  intros H. unfold int. by rewrite (proj2 (Nat.ltb_ge _ _) H).
Qed.

Lemma int_Raise s : (max_str_digits < length s)%nat → ∃ e, int s = Raise e.
Proof.
  intros H. unfold int. rewrite (proj2 (Nat.ltb_lt _ _) H). by eexists.
Qed.

Lemma int_inv s n :
  int s = Ok n → n = int_value s ∧ (length s ≤ max_str_digits)%nat.
Proof.
  unfold int. destruct (max_str_digits <? length s)%nat eqn:E; [done|].
  intros [= <-]. split; [done|]. by apply Nat.ltb_ge.
Qed.

Lemma normalize_card_name_head c r :
  isspace c = false →
  normalize_card_name (c :: r) ≠ [] ∨ c = "/"%char.
Proof.
  intros Hc. unfold normalize_card_name.
  assert (∀ sep, sep ≠ [] → contains sep (c :: r) = true →
    (∀ post, c :: r ≠ sep ++ post) →
    strip (default [] (head (split sep (c :: r)))) ≠ []) as Hsep.
  { intros sep Hne Hin Hstart.
    apply contains_spec, occurs_before_first in Hin as [pre Hpre].
    rewrite (before_first_head sep _ pre) by done.
    destruct Hpre as [[post Hs] _]. destruct pre as [|a pre].
    - by destruct (Hstart post).
    - injection Hs as <- _. by destruct (strip_head c pre Hc) as [t ->]. }
  destruct (contains (py " // ") (c :: r)) eqn:E1.
  - left. apply Hsep; [done..|]. intros post [= -> _]. by vm_compute in Hc.
  - destruct (contains (py "/") (c :: r)) eqn:E2; [|by left].
    destruct (decide (c = "/"%char)) as [->|Hne]; [by right|left].
    apply Hsep; [done..|]. by intros post [= -> _].
Qed.

Lemma tags_exclude_pair line tags_text :
  first_bracket_pair line tags_text →
  Exists (λ tag, strip tag = py "Sideboard") (split (py ",") tags_text)
  ∨ occurs (py "{noDeck}") tags_text →
  tags_exclude line = true.
Proof.
  intros Hpair Htags. unfold tags_exclude.
  destruct (Hpair) as (pre & post & Hline & _).
  assert (contains (py "[") line = true) as ->.
  { apply contains_spec. by exists pre, (tags_text ++ py "]" ++ post). }
  assert (contains (py "]") line = true) as ->.
  { apply contains_spec. exists (pre ++ py "[" ++ tags_text), post.
    by rewrite Hline, <- !app_assoc. }
  cbn [andb]. apply first_tags_complete in Hpair.
  unfold re_search. rewrite <- search_tags_re with (pos := 0%nat) in Hpair.
  destruct (search_from tags_re 0 line) as [m|]; [|done].
  cbn [fmap option_fmap option_map] in Hpair.
  injection Hpair as ->. destruct Htags as [Hside|Hno].
  - assert (existsb (λ tag, bool_decide (strip tag = py "Sideboard"))
              (split (py ",") tags_text) = true) as ->; [|done].
    apply existsb_exists. apply Exists_exists in Hside as (tag & Hin & Htag).
    exists tag. split; [by apply list_elem_of_In|by apply bool_decide_eq_true].
  - apply contains_spec in Hno. rewrite Hno. by destruct (existsb _ _).
Qed.

(** The two formats of the docstring of [parse_card_line], and lines the
    parser skips. *)

Lemma after_digits_exact pos x ws rest g :
  (x = [] ∨ x = py "x") → ws ≠ [] → Forall (λ c, isspace c = true) ws →
  (∀ c t, rest = c :: t → isspace c = false) →
  after_digits pos (x ++ ws ++ rest) g
    = Some (MatchObj (pos + length (x ++ ws)) g).
Proof.
  intros Hx Hne Hws Hrest. rewrite after_digits_unfold.
  assert (∀ pos', plus_class isspace accept pos' (ws ++ rest) g
                  = Some (MatchObj (pos' + length ws) g)) as Hplus.
  { intros pos'. rewrite plus_class_accept.
    destruct (scan_app isspace ws rest Hws Hrest) as [-> _]. by destruct ws. }
  destruct Hx as [->| ->].
  - change ([] ++ ws ++ rest) with (ws ++ rest).
    destruct Hws as [|c ws Hc Hws]; [done|].
    change ((c :: ws) ++ rest) with (c :: ws ++ rest) at 1. lazy beta iota.
    case_bool_decide as Hcx; [subst c; by vm_compute in Hc|].
    apply (Hplus pos).
  - change (py "x" ++ ws ++ rest) with ("x"%char :: ws ++ rest).
    lazy beta iota. rewrite bool_decide_eq_true_2 by done.
    rewrite (Hplus (S pos)). do 2 f_equal. simpl. lia.
Qed.

Lemma re_match_quantity_exact line digits x ws rest :
  quantity_prefix line digits x ws rest →
  re_match quantity_re line
    = Some (MatchObj (length (digits ++ x ++ ws)) (Some digits)).
Proof.
  intros (Hline & Hdne & Hd & Hx & Hne & Hws & Hrest).
  assert (quantity_token line digits rest) as Htok by (exists x, ws; eauto 10).
  destruct (quantity_token_digits _ _ _ Htok) as (Htake & x' & ws' & Hafter & _).
  assert (dropwhile isdigit line = x ++ ws ++ rest) as Hdrop.
  { pose proof (takewhile_dropwhile isdigit line) as H. rewrite Htake in H.
    rewrite Hline in H at 2. by apply app_inv_head in H. }
  unfold re_match, quantity_re. simpl.
  apply plus_class_greedy; rewrite Htake; [done|]. rewrite Hdrop.
  change (after_digits (0 + length digits) (x ++ ws ++ rest)
            (Some (take (0 + length digits - 0) line))
          = Some (MatchObj (length (digits ++ x ++ ws)) (Some digits))).
  rewrite after_digits_exact by done. simpl. rewrite Nat.sub_0_r.
  rewrite <- Htake at 2. rewrite <- takewhile_take, Htake.
  f_equal. f_equal. by rewrite (length_app digits).
Qed.

Lemma re_match_quantity_prefix line m :
  re_match quantity_re line = Some m →
  ∃ digits x ws rest,
    quantity_prefix line digits x ws rest ∧
    m = MatchObj (length (digits ++ x ++ ws)) (Some digits).
Proof.
  intros H. apply re_match_quantity_inv in H
    as (digits & x & ws & rest & ? & ? & ? & ? & ? & ? & ? & ->).
  exists digits, x, ws, rest. by repeat split.
Qed.

(** X4: the quantity pattern matches the lines that begin with digits,
    an optional "x" and white space; [group(1)] is then the whole run of
    digits, and [end()] lies behind the whole run of white space. *)

Lemma first_bracket_pair_strip line text :
  first_bracket_pair (strip line) text ↔ first_bracket_pair line text.
Proof. by rewrite <- !first_tags_spec, first_tags_strip. Qed.

Lemma excluded_by_tags_strip line :
  excluded_by_tags (strip line) ↔ excluded_by_tags line.
Proof.
  unfold excluded_by_tags. split; intros (text & Hpair & Htags); exists text;
    (split; [by apply first_bracket_pair_strip|done]).
Qed.

Lemma tags_exclude_excluded line :
  tags_exclude line = true → excluded_by_tags line.
Proof.
  unfold tags_exclude, excluded_by_tags.
  destruct (contains (py "[") line && contains (py "]") line); [|done].
  pose proof (search_tags_re 0 line) as Hsearch. unfold re_search.
  destruct (search_from tags_re 0 line) as [m|]; [|done].
  intros Hex. exists (group1 m). split; [by apply first_tags_sound|].
  destruct (existsb _ _) eqn:Hside.
  - left. apply existsb_exists in Hside as (tag & Hin & Htag).
    apply Exists_exists. exists tag.
    split; [by apply list_elem_of_In|by apply bool_decide_eq_true in Htag].
  - right. apply contains_spec. by destruct (contains _ (group1 m)).
Qed.

Lemma excluded_tags_exclude line :
  excluded_by_tags line → tags_exclude line = true.
Proof. intros (text & Hpair & Htags). by eapply tags_exclude_pair. Qed.

(** X6: the tags exclude a line exactly when its first bracket pair holds
    a tag equal to "Sideboard" once stripped, or the text "{noDeck}". *)

(** ** White space around a text *)

Lemma dropwhile_app_all p l s :
  Forall (λ c, p c = true) l → dropwhile p (l ++ s) = dropwhile p s.
Proof. induction 1 as [|c l Hc _ IH]; simpl; [done|]. by rewrite Hc. Qed.

Lemma lstrip_fixed s :
  (∀ c t, s = c :: t → isspace c = false) → lstrip s = s.
Proof.
  intros H. destruct s as [|c t]; [done|]. unfold lstrip. simpl.
  by rewrite (H c t eq_refl).
Qed.

Lemma rstrip_fixed s :
  (∀ t c, s = t ++ [c] → isspace c = false) → rstrip s = s.
Proof.
  intros H. unfold rstrip.
  destruct (reverse s) as [|c r] eqn:E.
  { apply (f_equal reverse) in E. rewrite reverse_involutive in E. by subst s. }
  assert (s = reverse r ++ [c]) as Hs.
  { rewrite <- (reverse_involutive s), E, reverse_cons. done. }
  simpl. rewrite (H _ _ Hs). by rewrite reverse_cons, <- Hs.
Qed.

Lemma strip_idemp s : strip (strip s) = strip s.
Proof.
  destruct (strip_spec s) as (l & r & _ & _ & _ & Hhead & Hlast).
  unfold strip at 1. rewrite (lstrip_fixed _ Hhead). by apply rstrip_fixed.
Qed.

Lemma rstrip_app_space s r :
  Forall (λ c, isspace c = true) r → rstrip (s ++ r) = rstrip s.
Proof.
  intros Hr. unfold rstrip. rewrite reverse_app, dropwhile_app_all; [done|].
  by apply Forall_reverse.
Qed.

Lemma strip_app_space l s r :
  Forall (λ c, isspace c = true) l → Forall (λ c, isspace c = true) r →
  strip (l ++ s ++ r) = strip s.
Proof.
  intros Hl Hr. unfold strip, lstrip. rewrite dropwhile_app_all by done.
  destruct (dropwhile isspace s) as [|c t] eqn:E.
  - rewrite scan_app_all by done. done.
  - destruct (scan_app_stop isspace s r) as [_ ->]; [by rewrite E|].
    rewrite E. by apply rstrip_app_space.
Qed.

Lemma occurs_strip sub s : occurs sub (strip s) → occurs sub s.
Proof.
  intros (pre & post & H). destruct (strip_spec s) as (l & r & Hs & _).
  exists (l ++ pre), (post ++ r). rewrite Hs, H. by rewrite <- !app_assoc.
Qed.

Lemma free_of_strip c s : free_of c s → free_of c (strip s).
Proof.
  unfold free_of. intros Hfree Hin. apply Hfree.
  destruct (strip_spec s) as (l & r & Hs & _). rewrite Hs.
  apply elem_of_app. right. apply elem_of_app. by left.
Qed.

(** ** What [parse_card_line] does, case by case *)

Lemma parse_card_line_blank line :
  strip line = [] → parse_card_line line = Ok (py "", 0).
Proof. intros H. unfold parse_card_line. by rewrite bool_decide_eq_true_2. Qed.

Lemma parse_card_line_tags line :
  tags_exclude (strip line) = true → parse_card_line line = Ok (py "", 0).
Proof.
  intros H. unfold parse_card_line. rewrite H. by case_bool_decide.
Qed.

Lemma parse_card_line_no_match line :
  re_match quantity_re (strip line) = None →
  parse_card_line line = Ok (py "", 0).
Proof.
  intros H. unfold parse_card_line. rewrite H.
  case_bool_decide; [done|]. by destruct (tags_exclude _).
Qed.

(** A line with a quantity token that the tags do not exclude: the
    conversion of the digits comes first, then the search of the name. *)
Lemma parse_card_line_prefix line digits x ws rest :
  tags_exclude (strip line) = false →
  quantity_prefix (strip line) digits x ws rest →
  parse_card_line line =
  match int digits with
  | Raise e => Raise e
  | Ok quantity =>
    match takewhile (not_char "(") rest with
    | [] => Ok (py "", 0)
    | name_text => Ok (normalize_card_name (strip name_text), quantity)
    end
  end.
Proof.
  intros Htags Hpre. unfold parse_card_line.
  assert (strip line ≠ []) as Hline.
  { destruct Hpre as (-> & Hd & _). by destruct digits. }
  rewrite bool_decide_eq_false_2 by done. rewrite Htags.
  rewrite (re_match_quantity_exact _ _ _ _ _ Hpre).
  unfold group1 at 1. cbn [m_end m_group1 from_option id].
  destruct (int digits) as [quantity|e]; [|done].
  assert (drop (length (digits ++ x ++ ws)) (strip line) = rest) as ->.
  { destruct Hpre as (-> & _).
    by rewrite !app_assoc, <- (app_assoc digits), drop_app_length. }
  rewrite re_match_card_name.
  by destruct (takewhile (not_char "(") rest).
Qed.

Lemma parse_card_line_cases line :
  (parse_card_line line = Ok (py "", 0) ∧
   (strip line = [] ∨ tags_exclude (strip line) = true ∨
    ¬ ∃ digits rest, quantity_token (strip line) digits rest)) ∨
  (∃ digits x ws rest,
     tags_exclude (strip line) = false ∧
     quantity_prefix (strip line) digits x ws rest).
Proof.
  destruct (decide (strip line = [])) as [Hblank|Hblank].
  { left. split; [by apply parse_card_line_blank|by left]. }
  destruct (tags_exclude (strip line)) eqn:Htags.
  { left. split; [by apply parse_card_line_tags|by right; left]. }
  destruct (re_match quantity_re (strip line)) as [m|] eqn:Hq.
  - right. apply re_match_quantity_prefix in Hq
      as (digits & x & ws & rest & Hpre & _). by exists digits, x, ws, rest.
  - left. split; [by apply parse_card_line_no_match|]. right. right.
    intros (digits & rest & Htok).
    apply re_match_quantity_token in Htok as (m & Hm & _). congruence.
Qed.

(** The two formats of the docstring of [parse_card_line], and lines the
    parser skips. *)
Example parse_card_line_plain :
  parse_card_line (py "1 Aftermath Analyst (EOC) 91")
    = Ok (py "Aftermath Analyst", 1).
Proof. by vm_compute. Qed.

Example parse_card_line_tagged :
  parse_card_line (py "1x Aftermath Analyst (mkm) 148 [Recursion,Creature]")
    = Ok (py "Aftermath Analyst", 1).
Proof. by vm_compute. Qed.

Example parse_card_line_skips :
  map parse_card_line
    [py ""; py "   "; py "Sol Ring"; py "3x"; py "3xx Opt"; py "4 (M10)";
     py "5 Opt [{noDeck}]"; py "2 Opt (X) 1 [Ramp, Sideboard ]"]
  = replicate 8 (Ok (py "", 0)).
Proof. by vm_compute. Qed.

(** A quantity of 4301 digits: [int] raises, also when no name follows,
    but not when the tags exclude the line. *)
Example parse_card_line_long_quantity :
  (∃ e, parse_card_line (replicate 4301 "7"%char ++ py " Opt") = Raise e) ∧
  (∃ e, parse_card_line (replicate 4301 "0"%char ++ py " (M10)") = Raise e) ∧
  parse_card_line (replicate 4301 "7"%char ++ py " Opt [Sideboard]")
    = Ok (py "", 0) ∧
  parse_card_line (replicate 4300 "0"%char ++ py " Opt") = Ok (py "Opt", 0).
Proof. repeat split; try (eexists; by vm_compute); by vm_compute. Qed.

Example split_examples :
  split (py " // ") (py "a // b // c") = [py "a"; py "b"; py "c"] ∧
  split (py " // ") (py "a // // b") = [py "a"; py "// b"] ∧
  split (py ",") (py "Foo,,Bar,") = [py "Foo"; py ""; py "Bar"; py ""] ∧
  split (py "/") (py "") = [py ""].
Proof. by vm_compute. Qed.

Lemma occurs_slash s : occurs (py " // ") s → occurs (py "/") s.
Proof.
  intros (pre & post & ->). exists (pre ++ py " "), (py "/ " ++ post).
  by rewrite <- !app_assoc.
Qed.

(** C2, as the code has it: the text before the first " // " is kept,
    stripped; failing that the text before the first "/" is kept, stripped,
    whatever surrounds the slash; a name without a slash is unchanged.
    So "Bala Ged Recovery // Bala Ged Sanctuary" gives "Bala Ged Recovery",
    and both "Fire/Ice" and "Fire / Ice" give "Fire". *)
Theorem normalize_card_name_spec (card_name : str) :
  (∀ pre, before_first (py " // ") card_name pre →
     normalize_card_name card_name = strip pre) ∧
  (¬ occurs (py " // ") card_name →
     ∀ pre, before_first (py "/") card_name pre →
       normalize_card_name card_name = strip pre) ∧
  (¬ occurs (py "/") card_name → normalize_card_name card_name = card_name) ∧
  normalize_card_name (py "Bala Ged Recovery // Bala Ged Sanctuary")
    = py "Bala Ged Recovery" ∧
  normalize_card_name (py "Fire/Ice") = py "Fire" ∧
  normalize_card_name (py "Fire / Ice") = py "Fire".
Proof.
  unfold normalize_card_name. repeat split.
  - intros pre Hpre. pose proof (before_first_occurs _ _ _ Hpre) as Hin.
    apply contains_spec in Hin. rewrite Hin.
    by rewrite (before_first_head _ _ pre).
  - intros Hno pre Hpre. apply contains_false in Hno. rewrite Hno.
    pose proof (before_first_occurs _ _ _ Hpre) as Hin.
    apply contains_spec in Hin. rewrite Hin.
    by rewrite (before_first_head _ _ pre).
  - intros Hno.
    assert (¬ occurs (py " // ") card_name) as Hno2
      by (intros H; by apply Hno, occurs_slash).
    apply contains_false in Hno, Hno2. by rewrite Hno, Hno2.
Qed.

Lemma normalize_card_name_spec_witness :
  ¬ occurs (py " // ") (py "Fire/Ice") ∧
  before_first (py "/") (py "Fire/Ice") (py "Fire") ∧
  normalize_card_name (py "Fire/Ice") = strip (py "Fire").
Proof.
  assert (¬ occurs (py " // ") (py "Fire/Ice")) as Hno
    by (by apply contains_false).
  assert (before_first (py "/") (py "Fire/Ice") (py "Fire")) as Hpre
    by (by apply before_first_compute).
  split; [done|]. split; [done|].
  exact (proj1 (proj2 (normalize_card_name_spec (py "Fire/Ice"))) Hno _ Hpre).
Defined.

(** C2 as stated fails: the only slash of "Fire / Ice" has spaces around
    it, and the name is not left unchanged. *)
Lemma normalize_card_name_spaced_slash :
  ¬ (normalize_card_name (py "Fire / Ice") = py "Fire / Ice").
Proof. by vm_compute. Qed.

(** C3: every explicit skip of the parser returns the empty name with
    the quantity 0, but a name text that begins with "/" is normalized to
    the empty name and comes back with the quantity of the line; the two
    readers then skip the line, as they skip every empty name. *)
Theorem parse_card_line_slash_name :
  parse_card_line (py "3 /Foo") = Ok (py "", 3) ∧
  (∀ cards, add_card cards (py "3 /Foo") = Ok cards) ∧
  (∀ filter_cards,
     add_filter_card filter_cards (py "3 /Foo") = Ok filter_cards) ∧
  map parse_card_line [py ""; py "Foo"; py "3 (Foo)"; py "3 Foo [Sideboard]"]
    = replicate 4 (Ok (py "", 0)).
Proof.
  assert (parse_card_line (py "3 /Foo") = Ok (py "", 3)) as H by (by vm_compute).
  split; [done|]. split; [|split; [|by vm_compute]].
  - intros cards. unfold add_card. by rewrite H.
  - intros filter_cards. unfold add_filter_card. by rewrite H.
Qed.

(** C6: a line whose first bracket pair holds a tag equal to "Sideboard"
    once stripped, or holds the text "{noDeck}", is skipped, whatever
    else the line says. *)
Theorem parse_card_line_excluded_tags (line tags_text : str) :
  first_bracket_pair line tags_text →
  Exists (λ tag, strip tag = py "Sideboard") (split (py ",") tags_text)
  ∨ occurs (py "{noDeck}") tags_text →
  parse_card_line line = Ok (py "", 0).
Proof.
  intros Hpair Htags. unfold parse_card_line.
  case_bool_decide; [done|].
  rewrite (tags_exclude_pair (strip line) tags_text); [done| |done].
  apply first_tags_spec. rewrite first_tags_strip. by apply first_tags_spec.
Qed.

Lemma parse_card_line_excluded_tags_witness :
  first_bracket_pair (py "2x Sol Ring (ABC) 2 [Foo,Sideboard]") (py "Foo,Sideboard") ∧
  parse_card_line (py "2x Sol Ring (ABC) 2 [Foo,Sideboard]") = Ok (py "", 0).
Proof.
  assert (first_bracket_pair (py "2x Sol Ring (ABC) 2 [Foo,Sideboard]")
            (py "Foo,Sideboard")) as Hpair by (by apply first_tags_spec).
  split; [done|].
  apply (parse_card_line_excluded_tags _ _ Hpair).
  left. apply Exists_exists. exists (py "Sideboard").
  split; [|done]. vm_compute. apply list_elem_of_In. simpl. tauto.
Defined.

(** C7: a line that, once stripped, does not begin with a quantity token
    is skipped. *)
Theorem parse_card_line_no_quantity (line : str) :
  (¬ ∃ digits rest, quantity_token (strip line) digits rest) →
  parse_card_line line = Ok (py "", 0).
Proof.
  intros Hno. unfold parse_card_line.
  case_bool_decide; [done|].
  destruct (tags_exclude (strip line)); [done|].
  destruct (re_match quantity_re (strip line)) as [qm|] eqn:Hq; [|done].
  destruct Hno.
  apply re_match_quantity_inv in Hq
    as (digits & x & ws & rest & Hline & Hne & Hd & Hx & Hwne & Hws & _).
  exists digits, rest, x, ws. eauto 10.
Qed.

Lemma parse_card_line_no_quantity_witness :
  (¬ ∃ digits rest, quantity_token (strip (py "Sol Ring x2")) digits rest) ∧
  parse_card_line (py "Sol Ring x2") = Ok (py "", 0).
Proof.
  assert (¬ ∃ digits rest, quantity_token (strip (py "Sol Ring x2")) digits rest)
    as Hno.
  { intros (digits & rest & Htok).
    by apply re_match_quantity_token in Htok as (m & Hm & _). }
  split; [done|]. exact (parse_card_line_no_quantity _ Hno).
Defined.

Lemma parse_card_line_card_entry line digits name_text :
  card_entry (strip line) digits name_text → ¬ excluded_by_tags line →
  parse_card_line line =
  match int digits with
  | Raise e => Raise e
  | Ok quantity => Ok (normalize_card_name (strip name_text), quantity)
  end.
Proof.
  intros (x & ws & tail & Hpre & Hne & Hfree & Htail) Hnot.
  assert (tags_exclude (strip line) = false) as Htags.
  { destruct (tags_exclude (strip line)) eqn:E; [|done]. destruct Hnot.
    by apply excluded_by_tags_strip, tags_exclude_excluded. }
  rewrite (parse_card_line_prefix _ _ _ _ _ Htags Hpre).
  destruct (int digits) as [quantity|e]; [|done].
  destruct (scan_app (not_char "(") name_text tail) as [-> _].
  - by apply not_char_all.
  - intros c r ->. destruct Htail as [|[t [= -> _]]]; done.
  - by destruct name_text.
Qed.

(** ** The file reader *)

Lemma name_of_Some line name :
  name_of line = Some name ↔ ∃ quantity, parse_card_line line = Ok (name, quantity).
Proof.
  unfold name_of. destruct (parse_card_line line) as [[n q]|e].
  - split; [intros [= ->]; eauto|intros [q' [= -> _]]; done].
  - split; [done|by intros [? ?]].
Qed.

Lemma parses_processed lines : Forall parses lines ↔ processed lines = lines.
Proof.
  induction lines as [|line lines IH]; simpl; [done|].
  rewrite Forall_cons, IH. unfold parses.
  destruct (parse_card_line line) as [item|e].
  - split; [intros [_ ->]; done|intros [= ->]; eauto].
  - split; [by intros [[? ?] _]|done].
Qed.

Lemma processed_parses lines : Forall parses (processed lines).
Proof.
  induction lines as [|line lines IH]; simpl; [done|].
  destruct (parse_card_line line) as [item|e] eqn:E; [|done].
  constructor; [by exists item|done].
Qed.

Lemma processed_prefix lines : ∃ rest, lines = processed lines ++ rest.
Proof.
  induction lines as [|line lines [rest IH]]; simpl; [by exists []|].
  destruct (parse_card_line line); [|by eexists].
  exists rest. simpl. congruence.
Qed.

Lemma add_card_Ok cards line :
  (∃ cards', add_card cards line = Ok cards') ↔ parses line.
Proof.
  unfold add_card, parses. destruct (parse_card_line line) as [[n q]|e].
  - split; [eauto|]. intros _. destruct (_ && _); eauto.
  - split; intros [? ?]; done.
Qed.

Lemma add_card_lookup cards cards' line name :
  add_card cards line = Ok cards' →
  cards' !! name =
  if decide (kept name ∧ name_of line = Some name)
  then Some (default 0 (cards !! name) + quantity_of line)
  else cards !! name.
Proof.
  unfold add_card, kept, name_of, quantity_of.
  destruct (parse_card_line line) as [[card_name quantity]|e]; [|done].
  destruct (decide (card_name = name)) as [->|Hne].
  - repeat case_bool_decide; simpl; intros [= <-]; case_decide; try tauto;
      by rewrite ?lookup_insert_eq.
  - rewrite decide_False by (intros [_ [= ?]]; done).
    repeat case_bool_decide; simpl; intros [= <-]; by rewrite ?lookup_insert_ne.
Qed.

Lemma read_cards_raised_from cards lines :
  (for_lines add_card cards lines).2 = None ↔ Forall parses lines.
Proof.
  revert cards. induction lines as [|line lines IH]; intros cards; simpl; [done|].
  rewrite Forall_cons. pose proof (add_card_Ok cards line) as Hok.
  destruct (add_card cards line) as [cards'|e].
  - rewrite IH. split; [intros ?; split; [apply Hok; eauto|done]|by intros [_ ?]].
  - simpl. split; [done|]. intros [[cards' ?]%Hok _]. done.
Qed.

Lemma read_cards_raised lines :
  (read_cards lines).2 = None ↔ Forall parses lines.
Proof. apply read_cards_raised_from. Qed.

Lemma for_lines_add_card_lookup lines cards name :
  kept name →
  (for_lines add_card cards lines).1 !! name =
  match entries_of name (processed lines) with
  | [] => cards !! name
  | entries => Some (default 0 (cards !! name) + total_quantity entries)
  end.
Proof.
  intros Hkept. revert cards.
  induction lines as [|line lines IH]; intros cards; [done|].
  simpl. pose proof (add_card_Ok cards line) as Hok. unfold parses in Hok.
  destruct (add_card cards line) as [cards'|e] eqn:Hadd.
  - destruct (parse_card_line line) as [item|e'] eqn:Hparse;
      [|by destruct (proj1 Hok (ex_intro _ _ eq_refl))].
    rewrite IH, (add_card_lookup _ _ _ _ Hadd). unfold entries_of.
    rewrite filter_cons. fold (entries_of name (processed lines)).
    destruct (decide (name_of line = Some name)) as [Hn|Hn].
    + rewrite decide_True by done. simpl.
      destruct (entries_of name (processed lines)); simpl; f_equal; lia.
    + rewrite decide_False by tauto. done.
  - destruct (parse_card_line line) as [item|e'] eqn:Hparse; [|done].
    destruct (proj2 Hok (ex_intro _ _ eq_refl)). done.
Qed.

Lemma for_lines_add_card_not_kept lines cards name :
  ¬ kept name → (for_lines add_card cards lines).1 !! name = cards !! name.
Proof.
  intros Hno. revert cards. induction lines as [|line lines IH]; intros cards; [done|].
  simpl. destruct (add_card cards line) as [cards'|e] eqn:Hadd; [|done].
  rewrite IH, (add_card_lookup _ _ _ _ Hadd). by rewrite decide_False by tauto.
Qed.

Lemma read_cards_lookup lines name :
  Forall parses lines → kept name → entries_of name lines ≠ [] →
  (read_cards lines).1 !! name = Some (total_quantity (entries_of name lines)).
Proof.
  intros Hok%parses_processed Hkept Hne. unfold read_cards.
  rewrite for_lines_add_card_lookup by done. rewrite Hok.
  destruct (entries_of name lines); [done|]. by rewrite lookup_empty.
Qed.

Lemma read_card_file_ok fs file_path lines :
  fs file_path = Lines lines None → Forall parses lines →
  read_card_file fs file_path = ([], Returned (read_cards lines).1).
Proof.
  intros Hfs Hok%read_cards_raised. unfold read_card_file. rewrite Hfs.
  destruct (read_cards lines) as [cards raised]. simpl in Hok. by subst raised.
Qed.

Lemma BASIC_LANDS_spec name :
  name ∈ BASIC_LANDS ↔
  name = py "Forest" ∨ name = py "Island" ∨ name = py "Swamp"
  ∨ name = py "Plains" ∨ name = py "Mountain".
Proof.
  unfold BASIC_LANDS. rewrite !elem_of_union, !elem_of_singleton. tauto.
Qed.

(** C4: when the reader gets through the file, the entry of a name is
    the sum of the quantities of all the lines that parse to it;
    "1 Sol Ring (M10) 1" and "2x Sol Ring (ABC) 2" make one entry,
    "Sol Ring" with 3. *)
Theorem read_card_file_sums :
  (∀ fs file_path lines name,
     fs file_path = Lines lines None → Forall parses lines →
     name ≠ [] → name ∉ BASIC_LANDS → entries_of name lines ≠ [] →
     ∃ cards,
       read_card_file fs file_path = ([], Returned cards) ∧
       cards !! name = Some (total_quantity (entries_of name lines))) ∧
  read_cards [py "1 Sol Ring (M10) 1"; py "2x Sol Ring (ABC) 2"]
    = ({[ py "Sol Ring" := 3 ]}, None).
Proof.
  split; [|by vm_compute].
  intros fs file_path lines name Hfs Hok Hne Hland Hentries.
  exists (read_cards lines).1. split; [by apply read_card_file_ok|].
  by apply read_cards_lookup.
Qed.

Lemma read_card_file_sums_witness :
  let fs : filesystem := λ _,
    Lines [py "1 Sol Ring (M10) 1"; py "3 Opt"; py "2x Sol Ring (ABC) 2"] None in
  ∃ cards,
    read_card_file fs (py "deck.txt") = ([], Returned cards) ∧
    cards !! py "Sol Ring" = Some 3.
Proof.
  intros fs.
  refine (proj1 read_card_file_sums fs (py "deck.txt") _ (py "Sol Ring")
            eq_refl _ _ _ _); [|done| |done].
  - repeat constructor; eexists; by vm_compute.
  - rewrite BASIC_LANDS_spec. by intros [|[|[|[|]]]].
Defined.

(** ** Filtering *)

Lemma remove_filtered_lookup filter_cards cards1 cards2 :
  filtered_from filter_cards cards1 (remove_filtered filter_cards cards1 cards2).1 ∧
  filtered_from filter_cards cards2 (remove_filtered filter_cards cards1 cards2).2.
Proof.
  unfold remove_filtered.
  apply (set_fold_ind_L (λ (r : gmap str Z * gmap str Z) (X : gset str),
    filtered_from X cards1 r.1 ∧ filtered_from X cards2 r.2)).
  - split; intros name; split; set_solver.
  - intros card X [r1 r2] Hfresh [IH1 IH2]. simpl in *.
    assert (∀ cards r, filtered_from X cards r →
      filtered_from ({[card]} ∪ X) cards
        (if bool_decide (is_Some (r !! card)) then delete card r else r)) as Hstep.
    { intros cards r IH name. destruct (IH name) as [IHin IHout].
      destruct (decide (name = card)) as [->|Hne].
      - split; [intros _|set_solver].
        case_bool_decide as Hin; [by rewrite lookup_delete_eq|].
        by apply eq_None_not_Some.
      - assert ((if bool_decide (is_Some (r !! card)) then delete card r else r)
                  !! name = r !! name) as ->.
        { case_bool_decide; by rewrite ?lookup_delete_ne. }
        split; intros Hname; [apply IHin|apply IHout]; set_solver. }
    split; by apply Hstep.
Qed.

Lemma remove_filtered_empty cards1 cards2 :
  remove_filtered ∅ cards1 cards2 = (cards1, cards2).
Proof. unfold remove_filtered. by rewrite set_fold_empty. Qed.

(** C5: a card mapping has no entry for the empty name nor for one of
    the five basic lands, matched exactly; after filtering it has none for
    a name of the exclusion set.  A file that only says "10 Forest" gives
    the empty mapping. *)
Theorem card_mapping_invariant :
  (∀ lines name,
     name = py "" ∨ name = py "Forest" ∨ name = py "Island" ∨ name = py "Swamp"
     ∨ name = py "Plains" ∨ name = py "Mountain" →
     (read_cards lines).1 !! name = None) ∧
  (∀ filter_cards cards1 cards2 name,
     name ∈ filter_cards →
     (remove_filtered filter_cards cards1 cards2).1 !! name = None ∧
     (remove_filtered filter_cards cards1 cards2).2 !! name = None) ∧
  (∀ filter_cards cards1 cards2 name,
     cards1 !! name = None → cards2 !! name = None →
     (remove_filtered filter_cards cards1 cards2).1 !! name = None ∧
     (remove_filtered filter_cards cards1 cards2).2 !! name = None) ∧
  read_cards [py "10 Forest"] = (∅, None) ∧
  read_cards [py "10 forest"] = ({[ py "forest" := 10 ]}, None).
Proof.
  repeat split; try by vm_compute.
  - intros lines name Hname. unfold read_cards.
    rewrite for_lines_add_card_not_kept; [done|]. intros [Hne Hland].
    destruct Hname as [->|Hname]; [done|]. by apply Hland, BASIC_LANDS_spec.
  - by apply (proj1 (remove_filtered_lookup filter_cards cards1 cards2)).
  - by apply (proj2 (remove_filtered_lookup filter_cards cards1 cards2)).
  - destruct (proj1 (remove_filtered_lookup filter_cards cards1 cards2) name)
      as [Hin Hout].
    destruct (decide (name ∈ filter_cards)); [auto|]. by rewrite Hout.
  - destruct (proj2 (remove_filtered_lookup filter_cards cards1 cards2) name)
      as [Hin Hout].
    destruct (decide (name ∈ filter_cards)); [auto|]. by rewrite Hout.
Qed.

Lemma card_mapping_invariant_witness :
  (read_cards [py "10 Forest"; py "1 Sol Ring"; py "2 /"]).1 !! py "Forest" = None ∧
  (remove_filtered {[ py "Sol Ring" ]}
     {[ py "Sol Ring" := 1; py "Brainstorm" := 1 ]} {[ py "Sol Ring" := 2 ]}).1
    !! py "Sol Ring" = None.
Proof.
  split.
  - apply (proj1 card_mapping_invariant). tauto.
  - apply (proj1 (proj2 card_mapping_invariant)). set_solver.
Defined.

(** ** The comparator *)

Lemma unique_to_file1_lookup cards1 cards2 card qty :
  unique_to_file1 cards1 cards2 !! card = Some qty ↔
  cards1 !! card = Some qty ∧ cards2 !! card = None.
Proof. unfold unique_to_file1. by rewrite map_lookup_filter_Some. Qed.

Lemma unique_to_file2_lookup cards1 cards2 card qty :
  unique_to_file2 cards1 cards2 !! card = Some qty ↔
  cards2 !! card = Some qty ∧ cards1 !! card = None.
Proof. unfold unique_to_file2. by rewrite map_lookup_filter_Some. Qed.

Lemma different_quantities_lookup cards1 cards2 card qty1 qty2 :
  different_quantities cards1 cards2 !! card = Some (qty1, qty2) ↔
  cards1 !! card = Some qty1 ∧ cards2 !! card = Some qty2 ∧ qty1 ≠ qty2.
Proof.
  unfold different_quantities. revert card qty1 qty2.
  apply (map_fold_weak_ind (λ (different : gmap str (Z * Z)) (m : gmap str Z),
    ∀ card qty1 qty2,
      different !! card = Some (qty1, qty2) ↔
      m !! card = Some qty1 ∧ cards2 !! card = Some qty2 ∧ qty1 ≠ qty2)).
  - intros card qty1 qty2. rewrite !lookup_empty. naive_solver.
  - intros i x m r Hfresh IH card qty1 qty2. unfold note_difference.
    destruct (decide (card = i)) as [->|Hne].
    + rewrite lookup_insert_eq.
      assert (r !! i = None) as Hr.
      { destruct (r !! i) as [[a b]|] eqn:E; [|done].
        apply IH in E as [E _]. congruence. }
      destruct (cards2 !! i) as [q2|] eqn:E2.
      * case_bool_decide as Hq.
        -- rewrite lookup_insert_eq. naive_solver.
        -- rewrite Hr. naive_solver.
      * rewrite Hr. naive_solver.
    + rewrite lookup_insert_ne by done. rewrite <- IH.
      destruct (cards2 !! i) as [q2|]; [|done].
      case_bool_decide; [|done]. by rewrite lookup_insert_ne.
Qed.

(** C1: the three results of the comparator, entry by entry, and the
    example of the specification. *)
Theorem compare_cards_spec (A B : gmap str Z) :
  (∀ card qty,
     unique_to_file1 A B !! card = Some qty ↔
     A !! card = Some qty ∧ B !! card = None) ∧
  (∀ card qty,
     unique_to_file2 A B !! card = Some qty ↔
     B !! card = Some qty ∧ A !! card = None) ∧
  (∀ card qty1 qty2,
     different_quantities A B !! card = Some (qty1, qty2) ↔
     A !! card = Some qty1 ∧ B !! card = Some qty2 ∧ qty1 ≠ qty2) ∧
  (∀ card,
     unique_to_file1 A B !! card = None ∧
     unique_to_file2 A B !! card = None ∧
     different_quantities A B !! card = None ↔
     A !! card = B !! card) ∧
  compare_cards A B =
    (unique_to_file1 A B, unique_to_file2 A B, different_quantities A B) ∧
  compare_cards {[ py "Sol Ring" := 1; py "Brainstorm" := 1 ]} {[ py "Sol Ring" := 2 ]}
    = ({[ py "Brainstorm" := 1 ]}, ∅, {[ py "Sol Ring" := (1, 2) ]}).
Proof.
  split; [apply unique_to_file1_lookup|].
  split; [apply unique_to_file2_lookup|].
  split; [apply different_quantities_lookup|].
  split; [|split; [done|by vm_compute]].
  intros card. rewrite !eq_None_not_Some. split.
  - intros (H1 & H2 & Hd).
    destruct (A !! card) as [qa|] eqn:HA, (B !! card) as [qb|] eqn:HB; [| | |done].
    + destruct (decide (qa = qb)) as [->|Hne]; [done|]. destruct Hd.
      exists (qa, qb). by apply different_quantities_lookup.
    + destruct H1. exists qa. by apply unique_to_file1_lookup.
    + destruct H2. exists qb. by apply unique_to_file2_lookup.
  - intros Heq. repeat split.
    + intros [q [HA HB]%unique_to_file1_lookup]. congruence.
    + intros [q [HB HA]%unique_to_file2_lookup]. congruence.
    + intros [[q1 q2] (HA & HB & Hne)%different_quantities_lookup]. congruence.
Qed.

Lemma int_value_zeros digits :
  Forall (λ c, c = "0"%char) digits → int_value digits = 0.
Proof.
  unfold int_value. induction 1 as [|c digits -> _ IH]; [done|].
  simpl. exact IH.
Qed.

Lemma total_quantity_zero entries :
  (∀ line, line ∈ entries → quantity_of line = 0) → total_quantity entries = 0.
Proof.
  unfold total_quantity. induction entries as [|line entries IH]; intros H; [done|].
  simpl. rewrite (H line) by left. rewrite IH; [done|].
  intros l Hl. apply H. by right.
Qed.

(** C10: a card entry whose quantity is zero, however it is written, is
    parsed like any other and not skipped; the reader gives its name the
    entry 0 or leaves the entry the name has; a name all of whose lines
    have the quantity 0 is in the mapping with 0; and such a name is
    reported as unique, with 0, when the other mapping lacks it. *)
Theorem zero_quantity_line_kept :
  (∀ line digits name_text cards,
     card_entry (strip line) digits name_text → ¬ excluded_by_tags line →
     Forall (λ c, c = "0"%char) digits → (length digits ≤ max_str_digits)%nat →
     let name := normalize_card_name (strip name_text) in
     parse_card_line line = Ok (name, 0) ∧
     (name ≠ [] → name ∉ BASIC_LANDS →
      (cards !! name = None → add_card cards line = Ok (<[name := 0]> cards)) ∧
      (is_Some (cards !! name) → add_card cards line = Ok cards))) ∧
  (∀ lines name,
     Forall parses lines → name ≠ [] → name ∉ BASIC_LANDS →
     entries_of name lines ≠ [] →
     (∀ line, line ∈ entries_of name lines → quantity_of line = 0) →
     (read_cards lines).1 !! name = Some 0) ∧
  (∀ cards1 cards2 name,
     cards1 !! name = Some 0 → cards2 !! name = None →
     unique_to_file1 cards1 cards2 !! name = Some 0 ∧
     unique_to_file2 cards2 cards1 !! name = Some 0) ∧
  map parse_card_line [py "0 Sol Ring"; py "0x Sol Ring"; py "00 Sol Ring (M10) 1"]
    = replicate 3 (Ok (py "Sol Ring", 0)) ∧
  read_cards [py "0 Sol Ring"] = ({[ py "Sol Ring" := 0 ]}, None) ∧
  compare_cards (read_cards [py "0 Sol Ring"]).1 (read_cards [py "1 Opt"]).1
    = ({[ py "Sol Ring" := 0 ]}, {[ py "Opt" := 1 ]}, ∅).
Proof.
  split; [|split; [|split; [|by vm_compute]]].
  - intros line digits name_text cards Hentry Hnot Hzero Hlen name.
    assert (parse_card_line line = Ok (name, 0)) as Hparse.
    { rewrite (parse_card_line_card_entry _ _ _ Hentry Hnot), int_Ok by done.
      by rewrite int_value_zeros. }
    split; [done|]. intros Hne Hland. unfold add_card. rewrite Hparse.
    rewrite bool_decide_eq_false_2, bool_decide_eq_true_2 by done. simpl.
    split.
    + intros ->. done.
    + intros [q Hq]. rewrite Hq. simpl. rewrite Z.add_0_r.
      f_equal. by apply insert_id.
  - intros lines name Hok Hne Hland Hentries Hzero.
    rewrite read_cards_lookup by done. by rewrite total_quantity_zero.
  - intros cards1 cards2 name H1 H2. split.
    + by apply unique_to_file1_lookup.
    + by apply unique_to_file2_lookup.
Qed.

Lemma zero_quantity_line_kept_witness :
  parse_card_line (py " 000x  Sol Ring (M10) 1 [Ramp]") = Ok (py "Sol Ring", 0) ∧
  (read_cards [py "0 Sol Ring"; py "1 Opt"; py "00 Sol Ring"]).1 !! py "Sol Ring"
    = Some 0 ∧
  unique_to_file1 {[ py "Sol Ring" := 0 ]} ∅ !! py "Sol Ring" = Some 0.
Proof.
  split; [|split].
  - refine (proj1 (proj1 zero_quantity_line_kept
              (py " 000x  Sol Ring (M10) 1 [Ramp]") (py "000") (py "Sol Ring ") ∅
              _ _ _ _)).
    + exists (py "x"), (py "  "), (py "(M10) 1 [Ramp]"). repeat split.
      * done.
      * by repeat constructor.
      * by right.
      * done.
      * by repeat constructor.
      * by intros c t [= <- _].
      * done.
      * apply not_char_all. by repeat constructor.
      * right. by eexists.
    + by intros H%excluded_tags_exclude.
    + by repeat constructor.
    + change (length (py "000")) with 3%nat. unfold max_str_digits. lia.
  - refine (proj1 (proj2 zero_quantity_line_kept) _ (py "Sol Ring") _ _ _ _ _).
    + repeat constructor; eexists; by vm_compute.
    + done.
    + rewrite BASIC_LANDS_spec. by intros [|[|[|[|]]]].
    + by vm_compute.
    + intros line Hline. vm_compute in Hline.
      apply elem_of_cons in Hline as [->|Hline]; [by vm_compute|].
      apply elem_of_cons in Hline as [->|Hline]; [by vm_compute|].
      by apply elem_of_nil in Hline.
  - refine (proj1 (proj1 (proj2 (proj2 zero_quantity_line_kept))
              {[ py "Sol Ring" := 0 ]} ∅ (py "Sol Ring") _ _)); by vm_compute.
Defined.

(** ** Failures of the files *)

Lemma bind_returned {A B} (f : A → IO B) out a :
  (out, Returned a) ≫= f = (out ++ (f a).1, (f a).2).
Proof. done. Qed.

Lemma bind_exited {A B} (f : A → IO B) out status :
  (out, Exited status) ≫= f = (out, Exited status).
Proof. done. Qed.

Lemma bind_raised {A B} (f : A → IO B) out e :
  (out, Raised e) ≫= f = (out, Raised e).
Proof. done. Qed.

Lemma bind_print {B} (f : unit → IO B) line :
  print line ≫= f = (line :: (f ()).1, (f ()).2).
Proof. done. Qed.

Lemma read_card_file_cases fs file_path :
  (∃ lines, fs file_path = Lines lines None ∧ Forall parses lines ∧
     read_card_file fs file_path = ([], Returned (read_cards lines).1)) ∨
  (∃ message, read_card_file fs file_path = ([message], Exited 1) ∧
     startswith (py "Error") message = true).
Proof.
  unfold read_card_file.
  destruct (fs file_path) as [|e|lines fault]; [right; by eexists..|].
  pose proof (read_cards_raised lines) as Hraised.
  destruct (read_cards lines) as [cards [e|]] eqn:Hread, fault as [e'|];
    [right; by eexists..|].
  left. exists lines. split; [done|]. split; [by apply Hraised|].
  by rewrite Hread.
Qed.

Lemma read_card_file_cannot_open fs file_path :
  cannot_open (fs file_path) →
  ∃ message, read_card_file fs file_path = ([message], Exited 1) ∧
    startswith (py "Error") message = true.
Proof.
  intros Hf. destruct (read_card_file_cases fs file_path)
    as [(lines & Hfs & _)|H]; [|done].
  destruct Hf as [Hf|[e Hf]]; congruence.
Qed.

Lemma compare_card_lists_fatal fs file1 file2 filter_file :
  cannot_open (fs file1) ∨ cannot_open (fs file2) →
  ∃ message, compare_card_lists fs file1 file2 filter_file = ([message], Exited 1) ∧
    startswith (py "Error") message = true.
Proof.
  intros Hf. unfold compare_card_lists.
  destruct (read_card_file_cases fs file1)
    as [(lines1 & Hfs1 & _ & ->)|(m1 & -> & Hm1)]; [|by eauto].
  rewrite bind_returned. destruct Hf as [Hf|Hf].
  { destruct Hf as [Hf|[e Hf]]; congruence. }
  destruct (read_card_file_cannot_open fs file2 Hf) as (m2 & -> & Hm2).
  rewrite bind_exited. eauto.
Qed.

Lemma main_unfold fs file1 file2 filter_file :
  ∃ banner, announcement banner ∧
    main fs file1 file2 filter_file =
    (banner :: (compare_card_lists fs file1 file2 filter_file
                  ≫= report file1 file2).1,
     (compare_card_lists fs file1 file2 filter_file ≫= report file1 file2).2).
Proof.
  unfold main. destruct (truthy filter_file); eexists; (split; [|apply bind_print]);
    done.
Qed.

(** C8: when a card list file cannot be opened, the reader prints an
    error and the process exits with status 1; all that was printed is the
    opening announcement and that error, no part of the report. *)
Theorem missing_card_file_is_fatal fs file1 file2 filter_file :
  cannot_open (fs file1) ∨ cannot_open (fs file2) →
  (∀ file_path, cannot_open (fs file_path) →
     ∃ message, read_card_file fs file_path = ([message], Exited 1) ∧
       startswith (py "Error") message = true) ∧
  exit_status (main fs file1 file2 filter_file) = 1 ∧
  ∃ banner message,
    stdout (main fs file1 file2 filter_file) = [banner; message] ∧
    announcement banner ∧ startswith (py "Error") message = true.
Proof.
  intros Hf. split; [apply read_card_file_cannot_open|].
  destruct (main_unfold fs file1 file2 filter_file) as (banner & Hb & ->).
  destruct (compare_card_lists_fatal fs file1 file2 filter_file Hf)
    as (message & -> & Hm).
  rewrite bind_exited. split; [done|]. by exists banner, message.
Qed.

Lemma missing_card_file_is_fatal_witness :
  let fs : filesystem := λ path,
    if bool_decide (path = py "a.txt") then Lines [py "1 Sol Ring"] None
    else NotFound in
  cannot_open (fs (py "b.txt")) ∧
  main fs (py "a.txt") (py "b.txt") None =
    ([py "Comparing card lists in 'a.txt' and 'b.txt'..." ++ nl;
      py "Error: File 'b.txt' not found."], Exited 1) ∧
  exit_status (main fs (py "a.txt") (py "b.txt") None) = 1.
Proof.
  intros fs. assert (cannot_open (fs (py "b.txt"))) as Hf by (by left).
  split; [done|]. split; [by vm_compute|].
  exact (proj1 (proj2 (missing_card_file_is_fatal fs (py "a.txt") (py "b.txt")
                         None (or_intror Hf)))).
Defined.

Lemma read_filter_file_cannot_open fs file_path :
  cannot_open (fs file_path) →
  ∃ warning, read_filter_file fs file_path = ([warning], Returned ∅) ∧
    startswith (py "Warning") warning = true.
Proof.
  unfold read_filter_file. intros [->|[e ->]]; by eexists.
Qed.

(** C9: a filter file that opens and then fails while it is read, here
    on a quantity of 4301 digits in its second line, gives the warning
    that no cards will be filtered and yet the set of the names read
    before the failure: "Sol Ring" is filtered, and the comparison is not
    the one made without a filter. *)
Theorem filter_file_failure_keeps_names :
  let fs : filesystem := λ path,
    if bool_decide (path = py "a.txt")
    then Lines [py "1 Sol Ring"; py "1 Brainstorm"] None
    else if bool_decide (path = py "b.txt") then Lines [py "2 Sol Ring"] None
    else Lines [py "1 Sol Ring"; replicate 4301 "1"%char ++ py " Opt"] None in
  (∃ warning,
     read_filter_file fs (py "skip.txt")
       = ([warning], Returned {[ py "Sol Ring" ]}) ∧
     startswith (py "Warning: Error reading filter file 'skip.txt': ") warning
       = true ∧
     occurs (py ". No cards will be filtered.") warning) ∧
  (compare_card_lists fs (py "a.txt") (py "b.txt") (Some (py "skip.txt"))).2
    = Returned ({[ py "Brainstorm" := 1 ]}, ∅, ∅) ∧
  (compare_card_lists fs (py "a.txt") (py "b.txt") None).2
    = Returned ({[ py "Brainstorm" := 1 ]}, ∅, {[ py "Sol Ring" := (1, 2) ]}).
Proof.
  intros fs. split; [|split; by vm_compute].
  eexists. split; [by vm_compute|]. split; [by vm_compute|].
  apply contains_spec. by vm_compute.
Qed.

